(** * PlantUML generator and syntax fixer: a shallow embedding

    The development follows [plantuml_syntax_fixer.py],
    [plantuml_generator.py] and the two encoders of
    [plantuml_renderer.py].  A Python [str] is a sequence of Unicode code
    points; it is embedded as a list of code points ([N]).  Exceptions are
    explicit results, dictionaries are insertion-ordered association lists,
    and the regular expressions of the source are written out as the
    deterministic scanners they denote. *)

From Stdlib Require Import String Ascii DecimalString.
From Stdlib Require Strings.Byte.
From Stdlib Require Import List NArith Bool Lia PeanoNat.
Import ListNotations.

Set Implicit Arguments.

(* ===================================================================== *)
(** ** Python strings *)
(* ===================================================================== *)

Module Py.

Definition char := N.
Definition str := list char.

(** Literals are written as UTF-8 text and decoded to code points
    (one-, two- and three-byte sequences). *)
Fixpoint utf8_decode (s : string) : str :=
  match s with
  | EmptyString => []
  | String a s1 =>
      let b1 := N_of_ascii a in
      if (b1 <? 128)%N then b1 :: utf8_decode s1
      else
        match s1 with
        | EmptyString => []
        | String a2 s2 =>
            let b2 := N_of_ascii a2 in
            if (b1 <? 224)%N
            then ((b1 - 192) * 64 + (b2 - 128))%N :: utf8_decode s2
            else
              match s2 with
              | EmptyString => []
              | String a3 s3 =>
                  let b3 := N_of_ascii a3 in
                  ((b1 - 224) * 4096 + (b2 - 128) * 64 + (b3 - 128))%N
                    :: utf8_decode s3
              end
        end
  end.

Definition lit (s : string) : str := utf8_decode s.

Definition nl : char := 10%N.

Definition eqb (a b : str) : bool :=
  if list_eq_dec N.eq_dec a b then true else false.

Definition is_empty (s : str) : bool :=
  match s with [] => true | _ :: _ => false end.

(** [str.isspace] of one code point, which is also the regular
    expression class [\s] on [str] patterns. *)
Definition is_space (c : char) : bool :=
  ((9 <=? c) && (c <=? 13) || (28 <=? c) && (c <=? 32)
   || (c =? 133) || (c =? 160) || (c =? 5760)
   || (8192 <=? c) && (c <=? 8202)
   || (c =? 8232) || (c =? 8233) || (c =? 8239) || (c =? 8287)
   || (c =? 12288))%N.

Fixpoint lstrip (s : str) : str :=
  match s with
  | [] => []
  | c :: s' => if is_space c then lstrip s' else s
  end.

Fixpoint rstrip (s : str) : str :=
  match s with
  | [] => []
  | c :: s' =>
      match rstrip s' with
      | [] => if is_space c then [] else [c]
      | r => c :: r
      end
  end.

Definition strip (s : str) : str := rstrip (lstrip s).

Fixpoint startswith (p s : str) : bool :=
  match p, s with
  | [], _ => true
  | _ :: _, [] => false
  | a :: p', b :: s' => (a =? b)%N && startswith p' s'
  end.

(** [sub in s] *)
Fixpoint contains (sub s : str) : bool :=
  startswith sub s
  || match s with
     | [] => false
     | _ :: s' => contains sub s'
     end.

(** [s.split(sep)] for a non-empty separator: occurrences are found from
    the left and do not overlap; [skip] counts the characters of the
    separator still to be consumed. *)
Fixpoint split_go (sep : str) (skip : nat) (s : str) : list str :=
  match s with
  | [] => [[]]
  | c :: s' =>
      match skip with
      | S k => split_go sep k s'
      | O =>
          if startswith sep s
          then [] :: split_go sep (length sep - 1) s'
          else
            match split_go sep 0 s' with
            | p :: ps => (c :: p) :: ps
            | [] => [[c]]
            end
      end
  end.

Definition split (sep s : str) : list str := split_go sep 0 s.

(** [sep.join(parts)] *)
Fixpoint join (sep : str) (parts : list str) : str :=
  match parts with
  | [] => []
  | [p] => p
  | p :: rest => p ++ sep ++ join sep rest
  end.

(** [s.replace(old, new)] for a non-empty [old]. *)
Fixpoint replace_go (old new : str) (skip : nat) (s : str) : str :=
  match s with
  | [] => []
  | c :: s' =>
      match skip with
      | S k => replace_go old new k s'
      | O =>
          if startswith old s
          then new ++ replace_go old new (length old - 1) s'
          else c :: replace_go old new 0 s'
      end
  end.

Definition replace (old new s : str) : str := replace_go old new 0 s.

(** [str(n)] for a non-negative integer. *)
Definition of_nat (n : nat) : str :=
  lit (NilZero.string_of_uint (Nat.to_uint n)).

(** The longest prefix whose characters satisfy [p], and the rest. *)
Fixpoint span (p : char -> bool) (s : str) : str * str :=
  match s with
  | [] => ([], [])
  | c :: s' =>
      if p c then let '(a, b) := span p s' in (c :: a, b) else ([], s)
  end.

(** A text without line break, and a text of white space only. *)
Definition no_nl (l : str) : Prop := ~ In nl l.

Definition all_space (ws : str) : Prop :=
  forall x, In x ws -> is_space x = true.

End Py.

Import Py.


(* ===================================================================== *)
(** ** Unicode tables of the runtime *)
(* ===================================================================== *)

(** The character database behind [str.isalnum] (hence [\w] and [\b]) and
    behind [str.lower] is not part of the program.  Basic Latin is written
    out; everything above it is taken from an instance of this class. *)
Class Unicode := {
  isalnum_ext : char -> bool;
  lower : str -> str
}.

(** An instance covering Basic Latin and the Cyrillic capitals, enough to
    run the program on the texts of this development. *)
Definition lower_char (c : char) : char :=
  if ((65 <=? c) && (c <=? 90))%N then (c + 32)%N
  else if ((1040 <=? c) && (c <=? 1071))%N then (c + 32)%N
  else if ((1024 <=? c) && (c <=? 1039))%N then (c + 80)%N
  else c.

Definition latin_cyrillic : Unicode := {|
  isalnum_ext := fun c => ((1024 <=? c) && (c <=? 1119))%N;
  lower := map lower_char
|}.

(* ===================================================================== *)
(** ** The regular expressions of the source *)
(* ===================================================================== *)

Module Re.
Section WithUnicode.
Context {U : Unicode}.

(** [\w] *)
Definition is_word (c : char) : bool :=
  if (c <? 128)%N
  then ((48 <=? c) && (c <=? 57) || (65 <=? c) && (c <=? 90)
        || (97 <=? c) && (c <=? 122) || (c =? 95))%N
  else isalnum_ext c.

(** [\b] right after a word character: the subject ends or goes on with
    a character that is not a word character. *)
Definition word_end (rest : str) : bool :=
  match rest with
  | [] => true
  | c :: _ => negb (is_word c)
  end.

(** A match at the start of [line] of the pattern that captures leading
    white space [\s*] as group 1 and then reads [:KW\b], for a keyword
    [KW] made of word characters: the result is group 1 and the text
    after the keyword.  As [:] is no white space, the group can only
    stand for all of the leading white space. *)
Definition match_colon (kw line : str) : option (str * str) :=
  let '(ws, r) := span is_space line in
  let rest := skipn (S (length kw)) r in
  if startswith (lit ":" ++ kw) r && word_end rest
  then Some (ws, rest) else None.

(** [re.sub] of that pattern by [\1KW] on [line] *)
Definition sub_colon (kw line : str) : str :=
  match match_colon kw line with
  | Some (ws, rest) => ws ++ kw ++ rest
  | None => line
  end.

End WithUnicode.
End Re.

(* ===================================================================== *)
(** ** plantuml_syntax_fixer.py *)
(* ===================================================================== *)

Module Fixer.
Section WithUnicode.
Context {U : Unicode}.

Definition opens_if (line : str) : bool :=
  startswith (lit "if ") (strip line).

Definition closes_if (line : str) : bool :=
  startswith (lit "endif") (strip line).

(** [list.insert(i, x)] for [i <= len(l)] *)
Definition insert_at (i : nat) (x : str) (l : list str) : list str :=
  firstn i l ++ x :: skipn i l.

(** The first index [j >= i] of a line that is not blank, where [ls] are
    the lines from index [i] on. *)
Fixpoint find_nonblank (ls : list str) (i : nat) : option nat :=
  match ls with
  | [] => None
  | l :: ls' =>
      if is_empty (strip l) then find_nonblank ls' (S i) else Some i
  end.

(** One turn of the first loop of [_validate_if_structure]: the state is
    [fixed_lines] and [if_stack]. *)
Definition scan_line (st : list str * list nat) (il : nat * str)
  : list str * list nat :=
  let '(fixed_lines, if_stack) := st in
  let '(i, line) := il in
  let stripped_line := strip line in
  if startswith (lit "if ") stripped_line
  then (fixed_lines ++ [line], if_stack ++ [i])
  else if startswith (lit "endif") stripped_line
  then (fixed_lines ++ [line], removelast if_stack)
  else if startswith (lit "if ") stripped_line
          && negb (contains (lit " then") stripped_line)
  then (fixed_lines ++ [rstrip line ++ lit " then"], if_stack)
  else (fixed_lines ++ [line], if_stack).

(** One turn of the second loop: close the [if] opened at
    [if_line_index]. *)
Definition close_if (fixed_lines : list str) (if_line_index : nat)
  : list str :=
  match find_nonblank (skipn (S if_line_index) fixed_lines)
          (S if_line_index) with
  | Some i => insert_at i (lit "endif") fixed_lines
  | None => fixed_lines ++ [lit "endif"]
  end.

Definition _validate_if_structure (plantuml_code : str) : str :=
  let lines := split [nl] plantuml_code in
  let '(fixed_lines, if_stack) :=
    fold_left scan_line (combine (seq 0 (length lines)) lines)
      ([], []) in
  join [nl] (fold_left close_if if_stack fixed_lines).

Definition forbidden_ids : list str :=
  map lit ["end"; "click"; "class"; "style"; "subgraph"; "graph";
           "flowchart"]%string.

Definition uses_forbidden (line forbidden_id : str) : bool :=
  contains (lit " as " ++ forbidden_id) line
  || contains (lit " " ++ forbidden_id ++ lit " ") line.

Definition problematic_patterns : list (str * str) :=
  [ (lit "if", lit "Двоеточие перед if");
    (lit "else", lit "Двоеточие перед else");
    (lit "endif", lit "Двоеточие перед endif");
    (lit "start", lit "Двоеточие перед start");
    (lit "stop", lit "Двоеточие перед stop") ].

Definition matches_colon (line : str) (pat : str * str) : bool :=
  match Re.match_colon (fst pat) line with
  | Some _ => true
  | None => false
  end.

(** The counting loop: the state is [(if_count, endif_count)]. *)
Definition count_line (st : nat * nat) (line : str) : nat * nat :=
  let '(if_count, endif_count) := st in
  let stripped_line := strip line in
  if startswith (lit "if ") stripped_line then (S if_count, endif_count)
  else if startswith (lit "endif") stripped_line
  then (if_count, S endif_count)
  else (if_count, endif_count).

Definition validate_plantuml_syntax (plantuml_code : str)
  : bool * list str :=
  if is_empty plantuml_code
  then (false, [lit "Пустой PlantUML код"])
  else
    let lines := split [nl] plantuml_code in
    let has_start := existsb (contains (lit "@startuml")) lines in
    let has_end := existsb (contains (lit "@enduml")) lines in
    let e_start :=
      if has_start then [] else [lit "Отсутствует @startuml"] in
    let e_end :=
      if has_end then [] else [lit "Отсутствует @enduml"] in
    let '(if_count, endif_count) := fold_left count_line lines (0, 0) in
    let e_balance :=
      if Nat.eqb if_count endif_count then []
      else [lit "Несоответствие количества if (" ++ of_nat if_count
            ++ lit ") и endif (" ++ of_nat endif_count ++ lit ")"] in
    let e_ids :=
      flat_map
        (fun line =>
           match find (uses_forbidden line) forbidden_ids with
           | Some forbidden_id =>
               [lit "Использование запрещенного ID: " ++ forbidden_id]
           | None => []
           end) lines in
    let e_colon :=
      flat_map
        (fun line =>
           match find (matches_colon line) problematic_patterns with
           | Some (_, error_msg) => [error_msg]
           | None => []
           end) lines in
    let e_theme :=
      if contains (lit "!thme") plantuml_code
      then [lit "Использование '!thme' вместо '!theme'"] else [] in
    let errors :=
      e_start ++ e_end ++ e_balance ++ e_ids ++ e_colon ++ e_theme in
    (Nat.eqb (length errors) 0, errors).

Definition patterns_to_fix : list str :=
  map lit ["if"; "else"; "endif"; "start"; "stop"]%string.

(** Fix 1: the state is [(fixed_code, fixes_applied)]. *)
Definition fix_theme (st : str * list str) : str * list str :=
  let '(fixed_code, fixes_applied) := st in
  if contains (lit "!thme") fixed_code
  then (replace (lit "!thme") (lit "!theme") fixed_code,
        fixes_applied ++ [lit "Исправлено '!thme' на '!theme'"])
  else st.

(** Fix 2, one pattern over all lines. *)
Definition fix_colon_line (kw line : str) : str * list str :=
  let new_line := Re.sub_colon kw line in
  (new_line,
   if Py.eqb new_line line then []
   else [lit "Убрано двоеточие перед ключевым словом в строке: "
         ++ strip line]).

Definition fix_colon (st : str * list str) (kw : str) : str * list str :=
  let '(fixed_code, fixes_applied) := st in
  let r := map (fix_colon_line kw) (split [nl] fixed_code) in
  (join [nl] (map fst r), fixes_applied ++ concat (map snd r)).

(** Fix 3, one line. *)
Definition fix_then_line (line : str) : str * list str :=
  if startswith (lit "if ") (strip line)
     && negb (contains (lit " then") line)
  then (rstrip line ++ lit " then",
        [lit "Добавлено 'then' после if в строке: " ++ strip line])
  else (line, []).

Definition then_line (line : str) : str := fst (fix_then_line line).

Definition fix_then (st : str * list str) : str * list str :=
  let '(fixed_code, fixes_applied) := st in
  let r := map fix_then_line (split [nl] fixed_code) in
  (join [nl] (map fst r), fixes_applied ++ concat (map snd r)).

Definition remaining_msg (remaining_errors : list str) : str :=
  lit "Остающиеся ошибки после автоматического исправления: "
  ++ join (lit ", ") remaining_errors.

(** Fix 2 on one line: the five patterns in turn. *)
Definition colon_line (line : str) : str :=
  fold_left (fun l kw => Re.sub_colon kw l) patterns_to_fix line.

(** A line on which fixes 1, 2 and 3 find nothing to do. *)
Definition settled (line : str) : Prop :=
  contains (lit "!thme") line = false
  /\ (forall kw, In kw patterns_to_fix -> Re.match_colon kw line = None)
  /\ (startswith (lit "if ") (strip line) = true ->
      contains (lit " then") line = true).

(** The text and the diagnostics after fixes 1 and 2. *)
Definition colon_fixed (plantuml_code : str) : str * list str :=
  fold_left fix_colon patterns_to_fix (fix_theme (plantuml_code, [])).

(** The text and the diagnostics after fixes 1, 2 and 3. *)
Definition then_fixed (plantuml_code : str) : str * list str :=
  fix_then (colon_fixed plantuml_code).

Definition auto_fix_plantuml (plantuml_code : str) : str * list str :=
  let '(is_valid, _) := validate_plantuml_syntax plantuml_code in
  if is_valid then (plantuml_code, [])
  else
    let '(code3, fixes3) := then_fixed plantuml_code in
    let fixed_code := _validate_if_structure code3 in
    let '(_, remaining_errors) := validate_plantuml_syntax fixed_code in
    (fixed_code,
     if Nat.eqb (length remaining_errors) 0 then fixes3
     else fixes3 ++ [remaining_msg remaining_errors]).

(** *** fix_plantuml_syntax *)

(** The loop over the five colon patterns: the first pattern that matches
    at the start of [line] is replaced, white space included, by its
    keyword, and the loop ends. *)
Fixpoint first_colon_fix (pats : list str) (line : str) : str :=
  match pats with
  | [] => line
  | kw :: pats' =>
      match Re.match_colon kw line with
      | Some (_, rest) => kw ++ rest
      | None => first_colon_fix pats' line
      end
  end.

(** The end of the conditional header: the last character that is no
    white space is a closing parenthesis, and no line break comes before
    it (the dot of the pattern matches none). *)
Definition closes_paren (s : str) : bool :=
  match rev (rstrip s) with
  | c :: before => (c =? 41)%N && negb (existsb (N.eqb nl) before)
  | [] => false
  end.

(** A match of the header pattern of fix 3: white space, [if], white
    space, an opening parenthesis, any characters, a closing parenthesis
    and white space up to the end. *)
Definition if_paren_shape (line : str) : bool :=
  let r := lstrip line in
  startswith (lit "if") r
  && match lstrip (skipn 2 r) with
     | c :: r3 => (c =? 40)%N && closes_paren r3
     | [] => false
     end.

(** The body of the loop over the lines. *)
Definition fix_line (line : str) : str :=
  let line1 :=
    if contains (lit "!thme") line
    then replace (lit "!thme") (lit "!theme") line else line in
  let line2 := first_colon_fix patterns_to_fix line1 in
  let line3 :=
    if if_paren_shape line2 && negb (contains (lit "then") line2)
    then rstrip line2 ++ lit " then" else line2 in
  rstrip line3.

Definition fix_plantuml_syntax (plantuml_code : str) : str :=
  if is_empty plantuml_code then plantuml_code
  else
    _validate_if_structure
      (join [nl] (map fix_line (split [nl] plantuml_code))).

(** *** Vocabulary for the statements about the fixer *)

(** The two counters of the validation, read off a text. *)
Definition if_endif_counts (code : str) : nat * nat :=
  fold_left count_line (split [nl] code) (0, 0).

End WithUnicode.
End Fixer.

(* ===================================================================== *)
(** ** Exceptions and dictionaries *)
(* ===================================================================== *)

Inductive exn : Type :=
| UnboundLocalError (name : string).

Inductive result (A : Type) : Type :=
| Ok (a : A)
| Raise (e : exn).

Arguments Ok {A} a.
Arguments Raise {A} e.

Definition bind {A B : Type} (r : result A) (k : A -> result B) : result B :=
  match r with
  | Ok a => k a
  | Raise e => Raise e
  end.

(** A loop whose body may raise. *)
Fixpoint for_each {S A : Type} (body : S -> A -> result S) (l : list A)
  (st : S) : result S :=
  match l with
  | [] => Ok st
  | a :: l' => bind (body st a) (for_each body l')
  end.

(** A [dict] with [str] keys: bindings in insertion order, keys unique. *)
Module Dict.
Section WithValue.
Variable V : Type.

Definition t := list (str * V).

Fixpoint get (k : str) (d : t) : option V :=
  match d with
  | [] => None
  | (k', v) :: d' => if Py.eqb k' k then Some v else get k d'
  end.

(** [k in d] *)
Definition mem (k : str) (d : t) : bool :=
  match get k d with Some _ => true | None => false end.

(** [d[k] = v]: an existing key keeps its place. *)
Fixpoint set (k : str) (v : V) (d : t) : t :=
  match d with
  | [] => [(k, v)]
  | (k', v') :: d' =>
      if Py.eqb k' k then (k', v) :: d' else (k', v') :: set k v d'
  end.

(** [not d] *)
Definition is_empty (d : t) : bool :=
  match d with [] => true | _ :: _ => false end.

End WithValue.
End Dict.

(* ===================================================================== *)
(** ** plantuml_generator.py *)
(* ===================================================================== *)

Module Generator.
Section WithUnicode.
Context {U : Unicode}.

Definition dq : str := [34%N].

(** The initial and final pseudo-state of an activity diagram: an
    asterisk in parentheses. *)
Definition pseudo_state : str := [40; 42; 41]%N.

Definition neq (c x : char) : bool := negb (x =? c)%N.

(** [re.match(r'^(\w+)', s)]: group 1. *)
Definition match_word (s : str) : option str :=
  match fst (span Re.is_word s) with
  | [] => None
  | w => Some w
  end.

(** [re.search] of an opening character [o], one or more characters
    other than [c], and [c]: group 1 of the leftmost match.  The greedy
    class stands for the whole run up to the next [c]. *)
Fixpoint search_delim (o c : char) (s : str) : option str :=
  match s with
  | [] => None
  | a :: s' =>
      if (a =? o)%N
      then
        let '(body, r) := span (neq c) s' in
        if negb (is_empty body) && startswith [c] r then Some body
        else search_delim o c s'
      else search_delim o c s'
  end.

(** [re.sub] of the same pattern with [o = c] by the empty string: all
    matches, from the left, without overlap. *)
Fixpoint sub_delim_go (c : char) (skip : nat) (s : str) : str :=
  match s with
  | [] => []
  | a :: s' =>
      match skip with
      | S k => sub_delim_go c k s'
      | O =>
          if (a =? c)%N
          then
            let '(body, r) := span (neq c) s' in
            if negb (is_empty body) && startswith [c] r
            then sub_delim_go c (S (length body)) s'
            else a :: sub_delim_go c 0 s'
          else a :: sub_delim_go c 0 s'
      end
  end.

Definition sub_delim (c : char) (s : str) : str := sub_delim_go c 0 s.

Definition bar : char := 124%N.

(** The label of a target part and the target part without it. *)
Definition take_label (target_part : str) : str * str :=
  match search_delim bar bar target_part with
  | Some label => (label, strip (sub_delim bar target_part))
  | None => ([], target_part)
  end.

(** The text of a node body: square brackets first, then braces. *)
Definition node_text (part : str) : option str :=
  match search_delim 91%N 93%N part with
  | Some t => Some t
  | None => search_delim 123%N 125%N part
  end.

Definition register (id part : str) (nodes : Dict.t str) : Dict.t str :=
  match node_text part with
  | Some t => Dict.set id t nodes
  | None => nodes
  end.

(** [lines] of a notation text, without a leading [flowchart] line. *)
Definition notation_lines (mermaid_code : str) : list str :=
  let lines := split [nl] (strip mermaid_code) in
  match lines with
  | l0 :: rest =>
      if startswith (lit "flowchart") (strip l0) then rest else lines
  | [] => lines
  end.

(** *** generateBPMNDiagram *)

Definition edge := (str * str * str)%type.

(** The variables of the parsing loop; [source_id] is unbound until a
    source identifier has been read. *)
Record bpmn_state := {
  nodes : Dict.t str;
  connections : list edge;
  source_id : option str
}.

Definition bpmn_line (st : bpmn_state) (raw : str) : result bpmn_state :=
  let line := strip raw in
  if is_empty line || startswith (lit "%%") line then Ok st
  else if contains (lit "-->") line then
    let parts := split (lit "-->") line in
    if 2 <=? length parts then
      let source_part := strip (nth 0 parts []) in
      let '(nodes1, source1) :=
        match match_word source_part with
        | Some sid => (register sid source_part (nodes st), Some sid)
        | None => (nodes st, source_id st)
        end in
      let '(label, target_part) :=
        take_label (strip (nth 1 parts [])) in
      match match_word target_part with
      | Some target_id =>
          let nodes2 := register target_id target_part nodes1 in
          match source1 with
          | Some sid =>
              Ok {| nodes := nodes2;
                    connections :=
                      connections st ++ [(sid, target_id, label)];
                    source_id := source1 |}
          | None => Raise (UnboundLocalError "source_id")
          end
      | None =>
          Ok {| nodes := nodes1; connections := connections st;
                source_id := source1 |}
      end
    else Ok st
  else Ok st.

Definition bpmn_parse (mermaid_code : str) : result bpmn_state :=
  for_each bpmn_line (notation_lines mermaid_code)
    {| nodes := []; connections := []; source_id := None |}.

(** The test on the source text that selects a conditional block. *)
Definition is_condition (source_text : str) : bool :=
  contains (lit "?") source_text
  || contains (lit "как") (lower source_text)
  || contains (lit "ли") (lower source_text).

Definition transition (label target_text : str) : str :=
  if is_empty label
  then lit "--> " ++ dq ++ target_text ++ dq
  else lit "-->[" ++ dq ++ label ++ dq ++ lit "] " ++ dq ++ target_text
       ++ dq.

(** The lines one turn of the emitting loop appends. *)
Definition edge_lines (nodes : Dict.t str) (e : edge) : list str :=
  let '(source, target, label) := e in
  match Dict.get source nodes, Dict.get target nodes with
  | Some source_text, Some target_text =>
      if is_condition source_text
      then [lit "if " ++ dq ++ source_text ++ dq ++ lit " then";
            lit "  " ++ transition label target_text]
      else [transition label target_text]
  | _, _ => []
  end.

Definition bpmn_header : list str :=
  map lit
    ["@startuml"; "!theme plain"; "title BPMN Process Diagram";
     "skinparam participant {";
     "  BackgroundColor LightGreen";
     "  BorderColor DarkGreen";
     "}";
     "skinparam activity {";
     "  BackgroundColor LightBlue";
     "  BorderColor DarkBlue";
     "}";
     "skinparam decision {";
     "  BackgroundColor LightYellow";
     "  BorderColor Orange";
     "}"]%string.

Definition bpmn_body (nodes : Dict.t str) (connections : list edge)
  : list str :=
  match nodes with
  | [] => []
  | (_, start_text) :: _ =>
      (pseudo_state ++ lit " --> " ++ dq ++ start_text ++ dq)
        :: flat_map (edge_lines nodes) connections
  end.

Definition bpmn_footer : list str :=
  [lit "--> " ++ pseudo_state; lit "@enduml"].

Definition bpmn_emit (nodes : Dict.t str) (connections : list edge)
  : list str :=
  bpmn_header ++ [lit "|"] ++ bpmn_body nodes connections ++ bpmn_footer.

Definition bpmn_skeleton : str :=
  join [nl] (map lit ["@startuml"; "title BPMN Diagram"; "@enduml"]%string).

Definition generateBPMNDiagram (processData : Dict.t str) : result str :=
  if Dict.is_empty processData
     || negb (Dict.mem (lit "bpmn_mermaid") processData)
  then Ok bpmn_skeleton
  else
    match Dict.get (lit "bpmn_mermaid") processData with
    | Some mermaid_code =>
        bind (bpmn_parse mermaid_code)
          (fun st => Ok (join [nl] (bpmn_emit (nodes st) (connections st))))
    | None => Ok bpmn_skeleton
    end.

(** An identifier with a declaration line in the use-case diagram. *)
Definition declared_in (actors usecases : Dict.t str) (id : str) : bool :=
  Dict.mem id actors || Dict.mem id usecases.

(** An edge that the emitting loop turns into a conditional block. *)
Definition is_decision_edge (nodes : Dict.t str) (e : edge) : bool :=
  let '(source, target, _) := e in
  match Dict.get source nodes, Dict.get target nodes with
  | Some source_text, Some _ => is_condition source_text
  | _, _ => false
  end.

(** *** generateUseCaseDiagram *)

Definition relation := (str * str * str * str)%type.

(** The variables of the parsing loop. *)
Record usecase_state := {
  actors : Dict.t str;
  usecases : Dict.t str;
  relations : list relation;
  uc_source_id : option str
}.

(** [re.match] of a word, an opening bracket, one or more characters
    other than the closing bracket, and the closing bracket: groups 1
    and 2. *)
Definition match_actor (s : str) : option (str * str) :=
  let '(w, r) := span Re.is_word s in
  match w, r with
  | _ :: _, o :: r1 =>
      let '(body, r2) := span (neq 93%N) r1 in
      if (o =? 91)%N && negb (is_empty body) && startswith [93%N] r2
      then Some (w, body) else None
  | _, _ => None
  end.

(** [re.match] of a word, two opening parentheses, one or more
    characters other than a closing parenthesis, and two closing
    parentheses: groups 1 and 2. *)
Definition match_usecase (s : str) : option (str * str) :=
  let '(w, r) := span Re.is_word s in
  match w, r with
  | _ :: _, o1 :: o2 :: r1 =>
      let '(body, r2) := span (neq 41%N) r1 in
      if (o1 =? 40)%N && (o2 =? 40)%N && negb (is_empty body)
         && startswith [41%N; 41%N] r2
      then Some (w, body) else None
  | _, _ => None
  end.

Definition is_actor_form (part : str) : bool :=
  contains (lit "[") part && negb (contains (lit "(") part).

Definition is_usecase_form (part : str) : bool :=
  contains (lit "((") part.

(** The source side of a relationship line. *)
Definition uc_source (st : usecase_state) (source_part : str)
  : usecase_state :=
  if is_actor_form source_part then
    match match_actor source_part with
    | Some (id, text) =>
        {| actors := Dict.set id text (actors st);
           usecases := usecases st; relations := relations st;
           uc_source_id := Some id |}
    | None => st
    end
  else if is_usecase_form source_part then
    match match_usecase source_part with
    | Some (id, text) =>
        {| actors := actors st;
           usecases := Dict.set id text (usecases st);
           relations := relations st; uc_source_id := Some id |}
    | None => st
    end
  else st.

(** [connections.append((source_id, target_id, connection_type, label))] *)
Definition uc_append (st : usecase_state)
  (target_id connection_type label : str) : result usecase_state :=
  match uc_source_id st with
  | Some sid =>
      Ok {| actors := actors st; usecases := usecases st;
            relations :=
              relations st ++ [(sid, target_id, connection_type, label)];
            uc_source_id := uc_source_id st |}
  | None => Raise (UnboundLocalError "source_id")
  end.

(** The target side of a relationship line. *)
Definition uc_target (st : usecase_state)
  (target_part connection_type label : str) : result usecase_state :=
  if is_actor_form target_part then
    match match_actor target_part with
    | Some (id, text) =>
        uc_append
          {| actors := Dict.set id text (actors st);
             usecases := usecases st; relations := relations st;
             uc_source_id := uc_source_id st |}
          id connection_type label
    | None => Ok st
    end
  else if is_usecase_form target_part then
    match match_usecase target_part with
    | Some (id, text) =>
        uc_append
          {| actors := actors st;
             usecases := Dict.set id text (usecases st);
             relations := relations st;
             uc_source_id := uc_source_id st |}
          id connection_type label
    | None => Ok st
    end
  else Ok st.

Definition usecase_line (st : usecase_state) (raw : str)
  : result usecase_state :=
  let line := strip raw in
  if is_empty line || startswith (lit "%%") line then Ok st
  else if contains (lit "-->") line || contains (lit "-.->") line then
    let '(parts, connection_type) :=
      if contains (lit "-->") line
      then (split (lit "-->") line, lit "-->")
      else (split (lit "-.->") line, lit ".->") in
    if 2 <=? length parts then
      let st1 := uc_source st (strip (nth 0 parts [])) in
      let '(label, target_part) :=
        take_label (strip (nth 1 parts [])) in
      uc_target st1 target_part connection_type label
    else Ok st
  else Ok st.

Definition usecase_parse (mermaid_code : str) : result usecase_state :=
  for_each usecase_line (notation_lines mermaid_code)
    {| actors := []; usecases := []; relations := [];
       uc_source_id := None |}.

Definition usecase_header : list str :=
  map lit
    ["@startuml"; "!theme plain"; "title Use Case Diagram";
     "left to right direction";
     "skinparam actor {";
     "  BackgroundColor LightGreen";
     "  BorderColor DarkGreen";
     "}";
     "skinparam usecase {";
     "  BackgroundColor LightBlue";
     "  BorderColor DarkBlue";
     "}"]%string.

Definition actor_line (kv : str * str) : str :=
  lit "actor " ++ dq ++ snd kv ++ dq ++ lit " as " ++ fst kv.

Definition usecase_decl (kv : str * str) : str :=
  lit "usecase " ++ dq ++ snd kv ++ dq ++ lit " as " ++ fst kv.

Definition relation_line (r : relation) : str :=
  let '(source, target, conn_type, label) := r in
  if is_empty label
  then source ++ lit " " ++ conn_type ++ lit " " ++ target
  else if Py.eqb conn_type (lit ".->")
  then source ++ lit " ." ++ skipn 1 conn_type ++ lit " " ++ dq ++ label
       ++ dq ++ lit " " ++ target
  else source ++ lit " " ++ conn_type ++ lit " " ++ dq ++ label ++ dq
       ++ lit " " ++ target.

Definition usecase_emit (st : usecase_state) : list str :=
  usecase_header
  ++ map actor_line (actors st) ++ [[]]
  ++ map usecase_decl (usecases st) ++ [[]]
  ++ map relation_line (relations st) ++ [lit "@enduml"].

Definition usecase_skeleton : str :=
  join [nl]
    (map lit ["@startuml"; "title Use Case Diagram"; "@enduml"]%string).

Definition generateUseCaseDiagram (actorData : Dict.t str) : result str :=
  if Dict.is_empty actorData
     || negb (Dict.mem (lit "usecase_mermaid") actorData)
  then Ok usecase_skeleton
  else
    match Dict.get (lit "usecase_mermaid") actorData with
    | Some mermaid_code =>
        bind (usecase_parse mermaid_code)
          (fun st => Ok (join [nl] (usecase_emit st)))
    | None => Ok usecase_skeleton
    end.

End WithUnicode.
End Generator.

(* ===================================================================== *)
(** ** plantuml_renderer.py: the two encoders *)
(* ===================================================================== *)

Module Renderer.

(** [s.endswith(suffix)] *)
Definition endswith (suffix s : str) : bool :=
  startswith (rev suffix) (rev s).

(** The common start of both encoders: the text is stripped and, where
    they are missing, the start marker is put before it and the end marker
    after it. *)
Definition with_markers (plantuml_code : str) : str :=
  let code := strip plantuml_code in
  let code :=
    if startswith (lit "@start") code then code
    else lit "@startuml" ++ [nl] ++ code in
  if endswith (lit "@enduml") code then code
  else code ++ [nl] ++ lit "@enduml".

Definition plantuml_alphabet : str :=
  lit "0123456789ABCDEFGHIJKLMNOPQRSTUVWXYZabcdefghijklmnopqrstuvwxyz-_".

(** [plantuml_alphabet[i]]; an index out of range raises [IndexError],
    which is [None] here. *)
Definition letter (i : N) : option char :=
  nth_error plantuml_alphabet (N.to_nat i).

(** The four indices of a group of three bytes. *)
Definition sextet1 (b1 : N) : N := N.shiftr b1 2.
Definition sextet2 (b1 b2 : N) : N :=
  N.lor (N.shiftl (N.land b1 3) 4) (N.shiftr b2 4).
Definition sextet3 (b2 b3 : N) : N :=
  N.lor (N.shiftl (N.land b2 15) 2) (N.shiftr b3 6).
Definition sextet4 (b3 : N) : N := N.land b3 63.

(** The indices the loop looks up, three bytes at a time; a rest of two
    bytes gives three indices and a rest of one byte gives two. *)
Fixpoint sextets (compressed : list Byte.byte) : list N :=
  match compressed with
  | b1 :: b2 :: b3 :: rest =>
      let n1 := Byte.to_N b1 in
      let n2 := Byte.to_N b2 in
      let n3 := Byte.to_N b3 in
      sextet1 n1 :: sextet2 n1 n2 :: sextet3 n2 n3 :: sextet4 n3
        :: sextets rest
  | [b1; b2] =>
      let n1 := Byte.to_N b1 in
      let n2 := Byte.to_N b2 in
      [sextet1 n1; sextet2 n1 n2; N.shiftl (N.land n2 15) 2]
  | [b1] =>
      let n1 := Byte.to_N b1 in
      [sextet1 n1; N.shiftl (N.land n1 3) 4]
  | [] => []
  end.

Fixpoint letters (indices : list N) : option str :=
  match indices with
  | [] => Some []
  | i :: rest =>
      match letter i, letters rest with
      | Some c, Some r => Some (c :: r)
      | _, _ => None
      end
  end.

(** The encoding loop of [encode_plantuml_compressed]. *)
Definition encode64 (compressed : list Byte.byte) : option str :=
  letters (sextets compressed).

Section WithLibraries.
(** [deflate code] stands for
    [zlib.compress(code.encode('utf-8'), 9)[2:-4]] and [quote] for
    [urllib.parse.quote]. *)
Variable deflate : str -> list Byte.byte.
Variable quote : str -> str.

Definition encode_plantuml_text (plantuml_code : str) : str :=
  quote (with_markers plantuml_code).

Definition encode_plantuml_compressed (plantuml_code : str) : option str :=
  encode64 (deflate (with_markers plantuml_code)).

End WithLibraries.
End Renderer.

(* ===================================================================== *)
(** ** Sample texts *)
(* ===================================================================== *)

Module Samples.

(** A text given line by line. *)
Definition text (lines : list string) : str := join [nl] (map lit lines).

(** One unclosed conditional, no end marker, a final line break. *)
Definition unclosed_if : str :=
  text ["@startuml"; "if (x?) then"; ":a;"; ""]%string.

Definition unclosed_if_fixed : str :=
  text ["@startuml"; "if (x?) then"; "endif"; ":a;"; ""]%string.

(** A valid text whose conditional has no [then]. *)
Definition if_without_then : str :=
  text ["@startuml"; "if (x)"; "endif"; "@enduml"]%string.

(** The same without end marker, so that validation fails. *)
Definition if_without_then_unfinished : str :=
  text ["@startuml"; "if (x)"; "endif"]%string.

(** A text without conditionals and without end marker. *)
Definition no_end_marker : str := text ["@startuml"; ":a;"]%string.

Definition bpmn_key : str := lit "bpmn_mermaid".
Definition usecase_key : str := lit "usecase_mermaid".

Definition bpmn_empty_notation : list str :=
  map lit
    ["@startuml"; "!theme plain"; "title BPMN Process Diagram";
     "skinparam participant {";
     "  BackgroundColor LightGreen";
     "  BorderColor DarkGreen";
     "}";
     "skinparam activity {";
     "  BackgroundColor LightBlue";
     "  BorderColor DarkBlue";
     "}";
     "skinparam decision {";
     "  BackgroundColor LightYellow";
     "  BorderColor Orange";
     "}";
     "|"]%string
  ++ [lit "--> " ++ Generator.pseudo_state; lit "@enduml"].

Definition user_login : str := lit "A[User] --> B((Login))".

Definition user_login_diagram : list str :=
  map lit
    ["@startuml"; "!theme plain"; "title Use Case Diagram";
     "left to right direction";
     "skinparam actor {";
     "  BackgroundColor LightGreen";
     "  BorderColor DarkGreen";
     "}";
     "skinparam usecase {";
     "  BackgroundColor LightBlue";
     "  BorderColor DarkBlue";
     "}"]%string
  ++ [lit "actor " ++ Generator.dq ++ lit "User" ++ Generator.dq
      ++ lit " as A";
      [];
      lit "usecase " ++ Generator.dq ++ lit "Login" ++ Generator.dq
      ++ lit " as B";
      [];
      lit "A --> B";
      lit "@enduml"].

(** A relationship line whose source side has neither node form. *)
Definition bare_source : str := lit "foo --> B[bar]".

(** The same after a well-formed line. *)
Definition bare_source_second : str :=
  text ["A[User] --> B((Login))"; "foo --> C((Pay))"]%string.

(** An edge from a decision to an identifier that has no node body. *)
Definition dangling_decision : str := lit "A[ok?] --> B".

Definition dangling_decision_diagram : list str :=
  Generator.bpmn_header
  ++ [lit "|";
      Generator.pseudo_state ++ lit " --> " ++ Generator.dq ++ lit "ok?"
      ++ Generator.dq]
  ++ Generator.bpmn_footer.

(** An edge from a decision to an action. *)
Definition decision_edge : str := lit "A{ok?} -->|yes| B[Done]".

End Samples.

Module MoreSamples.
Import Samples.

(** One unclosed conditional between the two markers. *)
Definition unclosed_marked : str :=
  text ["@startuml"; "if (x) then"; ":a;"; "@enduml"]%string.

End MoreSamples.

(* ===================================================================== *)
(** ** Facts about the string operations *)
(* ===================================================================== *)

Unset Implicit Arguments.

Module PyFacts.

Lemma startswith_app (p s : str) : startswith p (p ++ s) = true.
Proof.
  induction p as [| a p IH]; simpl; [reflexivity |].
  rewrite N.eqb_refl, IH. reflexivity.
Qed.

Lemma startswith_inv (p s : str) :
  startswith p s = true -> exists r, s = p ++ r.
Proof.
  revert s. induction p as [| a p IH]; intros s H.
  - exists s. reflexivity.
  - destruct s as [| b s]; [discriminate |]. simpl in H.
    apply andb_true_iff in H. destruct H as [Hab Hp].
    apply N.eqb_eq in Hab. subst b.
    destruct (IH _ Hp) as [r ->]. exists r. reflexivity.
Qed.

Lemma contains_unfold (sub s : str) :
  contains sub s
  = startswith sub s
    || match s with
       | [] => false
       | _ :: s' => contains sub s'
       end.
Proof. destruct s; reflexivity. Qed.

Lemma contains_intro (sub a b : str) : contains sub (a ++ sub ++ b) = true.
Proof.
  induction a as [| c a IH].
  - rewrite contains_unfold. simpl app. rewrite startswith_app. reflexivity.
  - rewrite contains_unfold. simpl app. cbv iota. rewrite IH.
    apply orb_true_r.
Qed.

Lemma contains_inv (sub s : str) :
  contains sub s = true -> exists a b, s = a ++ sub ++ b.
Proof.
  induction s as [| c s IH]; simpl; intros H.
  - rewrite orb_false_r in H. apply startswith_inv in H.
    destruct H as [r Hr]. exists [], r. exact Hr.
  - apply orb_true_iff in H. destruct H as [H | H].
    + apply startswith_inv in H. destruct H as [r Hr].
      exists [], r. exact Hr.
    + destruct (IH H) as (a & b & ->). exists (c :: a), b. reflexivity.
Qed.

Lemma contains_app_r (sub a : str) : contains sub (a ++ sub) = true.
Proof.
  rewrite <- (app_nil_r sub) at 2. apply contains_intro.
Qed.

(** A text that has [sub] inside one of its pieces has [sub]. *)
Lemma contains_inside (sub a l b : str) :
  contains sub l = true -> contains sub (a ++ l ++ b) = true.
Proof.
  intros H. apply contains_inv in H. destruct H as (x & y & ->).
  replace (a ++ (x ++ sub ++ y) ++ b) with ((a ++ x) ++ sub ++ (y ++ b))
    by (rewrite <- !app_assoc; reflexivity).
  apply contains_intro.
Qed.

(** *** Lines *)

Lemma split_nl_cons (c : char) (s : str) :
  split [nl] (c :: s)
  = if (nl =? c)%N then [] :: split [nl] s
    else match split [nl] s with
         | p :: ps => (c :: p) :: ps
         | [] => [[c]]
         end.
Proof.
  unfold split. simpl. rewrite andb_true_r. reflexivity.
Qed.

Lemma split_not_nil (s : str) : split [nl] s <> [].
Proof.
  destruct s as [| c s]; [discriminate |].
  rewrite split_nl_cons.
  destruct (nl =? c)%N; [discriminate |].
  destruct (split [nl] s); discriminate.
Qed.

Lemma split_line (l : str) : no_nl l -> split [nl] l = [l].
Proof.
  induction l as [| c l IH]; intros H; [reflexivity |].
  rewrite split_nl_cons.
  destruct (N.eqb_spec nl c) as [E | _].
  - exfalso. apply H. left. symmetry. exact E.
  - rewrite IH; [reflexivity |]. intros Hin. apply H. right. exact Hin.
Qed.

Lemma split_app_nl (l r : str) :
  no_nl l -> split [nl] (l ++ nl :: r) = l :: split [nl] r.
Proof.
  induction l as [| c l IH]; intros H.
  - simpl app. rewrite split_nl_cons, N.eqb_refl. reflexivity.
  - simpl app. rewrite split_nl_cons.
    destruct (N.eqb_spec nl c) as [E | _].
    + exfalso. apply H. left. symmetry. exact E.
    + rewrite IH; [reflexivity |]. intros Hin. apply H. right. exact Hin.
Qed.

Lemma split_join (ls : list str) :
  ls <> [] -> Forall no_nl ls -> split [nl] (join [nl] ls) = ls.
Proof.
  induction ls as [| l ls IH]; intros Hne Hall; [congruence |].
  inversion Hall as [| ? ? Hl Hls]; subst.
  destruct ls as [| l2 ls].
  - simpl. apply split_line. exact Hl.
  - change (join [nl] (l :: l2 :: ls)) with (l ++ nl :: join [nl] (l2 :: ls)).
    rewrite split_app_nl by exact Hl.
    rewrite IH; [reflexivity | discriminate | exact Hls].
Qed.

Lemma split_no_nl (s : str) : Forall no_nl (split [nl] s).
Proof.
  induction s as [| c s IH].
  - constructor; [intros [] | constructor].
  - rewrite split_nl_cons.
    destruct (N.eqb_spec nl c) as [_ | Hc].
    + constructor; [intros [] | exact IH].
    + destruct (split [nl] s) as [| p ps].
      * constructor; [| constructor].
        intros [H | []]. apply Hc. symmetry. exact H.
      * inversion IH as [| ? ? Hp Hps]; subst.
        constructor; [| exact Hps].
        intros [H | H]; [apply Hc; symmetry; exact H | apply Hp; exact H].
Qed.

Lemma join_split (s : str) : join [nl] (split [nl] s) = s.
Proof.
  induction s as [| c s IH]; [reflexivity |].
  rewrite split_nl_cons.
  destruct (N.eqb_spec nl c) as [<- | _].
  - pose proof (split_not_nil s) as Hne.
    destruct (split [nl] s) as [| p ps] eqn:E; [congruence |].
    change (join [nl] ([] :: p :: ps)) with (nl :: join [nl] (p :: ps)).
    rewrite IH. reflexivity.
  - pose proof (split_not_nil s) as Hne.
    destruct (split [nl] s) as [| p ps] eqn:E; [congruence |].
    rewrite <- IH.
    destruct ps; reflexivity.
Qed.

(** A line of a text is a piece of the text. *)
Lemma join_piece (ls : list str) (l : str) :
  In l ls -> exists a b, join [nl] ls = a ++ l ++ b.
Proof.
  induction ls as [| l0 ls IH]; intros Hin; [destruct Hin |].
  destruct Hin as [-> | Hin].
  - destruct ls as [| l2 ls].
    + exists [], []. simpl. rewrite app_nil_r. reflexivity.
    + exists [], (nl :: join [nl] (l2 :: ls)). reflexivity.
  - destruct (IH Hin) as (a & b & Hab).
    destruct ls as [| l2 ls]; [destruct Hin |].
    exists (l0 ++ nl :: a), b.
    change (join [nl] (l0 :: l2 :: ls))
      with (l0 ++ nl :: join [nl] (l2 :: ls)).
    rewrite Hab, <- app_assoc. reflexivity.
Qed.

Lemma contains_line (sub s l : str) :
  In l (split [nl] s) -> contains sub l = true -> contains sub s = true.
Proof.
  intros Hin Hc. destruct (join_piece _ _ Hin) as (a & b & Hab).
  rewrite join_split in Hab. rewrite Hab. apply contains_inside. exact Hc.
Qed.

(** *** White space at the ends *)

Lemma span_decomp (p : char -> bool) (l : str) :
  l = fst (span p l) ++ snd (span p l).
Proof.
  induction l as [| c l IH]; [reflexivity |].
  simpl. destruct (p c); [| reflexivity].
  destruct (span p l) as [a b]. simpl in *. f_equal. exact IH.
Qed.

Lemma span_space_all (l : str) : all_space (fst (span is_space l)).
Proof.
  induction l as [| c l IH]; [intros x [] |].
  simpl. destruct (is_space c) eqn:E; [| intros x []].
  destruct (span is_space l) as [a b]. simpl in *.
  intros x [<- | Hx]; [exact E | apply IH; exact Hx].
Qed.

Lemma span_space_app (ws : str) (c : char) (y : str) :
  all_space ws -> is_space c = false ->
  span is_space (ws ++ c :: y) = (ws, c :: y).
Proof.
  intros Hws Hc. induction ws as [| w ws IH].
  - simpl. rewrite Hc. reflexivity.
  - simpl. rewrite (Hws w (or_introl eq_refl)).
    rewrite IH; [reflexivity |].
    intros x Hx. apply Hws. right. exact Hx.
Qed.

Lemma lstrip_decomp (l : str) :
  exists ws, all_space ws /\ l = ws ++ lstrip l.
Proof.
  induction l as [| c l (ws & Hws & IH)].
  - exists []. split; [intros x [] | reflexivity].
  - simpl. destruct (is_space c) eqn:E.
    + exists (c :: ws). split.
      * intros x [<- | Hx]; [exact E | apply Hws; exact Hx].
      * simpl. f_equal. exact IH.
    + exists []. split; [intros x [] | reflexivity].
Qed.

Lemma lstrip_head (l : str) (c : char) (r : str) :
  lstrip l = c :: r -> is_space c = false.
Proof.
  induction l as [| a l IH]; simpl; [discriminate |].
  destruct (is_space a) eqn:E; [exact IH |].
  intros H. injection H as <- _. exact E.
Qed.

Lemma rstrip_cons (c : char) (r : str) :
  is_space c = false -> exists r', rstrip (c :: r) = c :: r'.
Proof.
  intros Hc. simpl. destruct (rstrip r) as [| r0 r1].
  - rewrite Hc. exists []. reflexivity.
  - exists (r0 :: r1). reflexivity.
Qed.

Lemma rstrip_app (a b : str) :
  rstrip b <> [] -> rstrip (a ++ b) = a ++ rstrip b.
Proof.
  intros Hb. induction a as [| c a IH]; [reflexivity |].
  simpl. rewrite IH.
  destruct (a ++ rstrip b) eqn:E; [| reflexivity].
  apply app_eq_nil in E. destruct E as [_ E]. congruence.
Qed.

(** *** Occurrences and separators *)

Lemma startswith_sep (sub a : str) (sep : char) (b : str) :
  ~ In sep sub -> startswith sub (a ++ sep :: b) = startswith sub a.
Proof.
  revert a. induction sub as [| s0 sub IH]; intros a Hsep; [reflexivity |].
  destruct a as [| c a]; simpl.
  - destruct (N.eqb_spec s0 sep) as [E | _]; [| reflexivity].
    exfalso. apply Hsep. left. exact E.
  - rewrite IH; [reflexivity |]. intros H. apply Hsep. right. exact H.
Qed.

Lemma contains_app_sep (sub a : str) (sep : char) (b : str) :
  sub <> [] -> ~ In sep sub ->
  contains sub (a ++ sep :: b) = contains sub a || contains sub b.
Proof.
  intros Hne Hsep. destruct sub as [| s0 sub]; [congruence |].
  induction a as [| c a IH].
  - simpl app. rewrite (contains_unfold _ (sep :: b)).
    replace (startswith (s0 :: sub) (sep :: b)) with false; [reflexivity |].
    simpl. destruct (N.eqb_spec s0 sep) as [E | _]; [| reflexivity].
    exfalso. apply Hsep. left. exact E.
  - rewrite (contains_unfold _ ((c :: a) ++ sep :: b)).
    rewrite (startswith_sep _ (c :: a) sep b Hsep).
    simpl app. cbv iota. rewrite IH.
    rewrite (contains_unfold _ (c :: a)). rewrite orb_assoc. reflexivity.
Qed.

Lemma contains_join (sub : str) (ls : list str) :
  sub <> [] -> no_nl sub ->
  contains sub (join [nl] ls) = existsb (contains sub) ls.
Proof.
  intros Hne Hnl. induction ls as [| l ls IH].
  - destruct sub; [congruence | reflexivity].
  - destruct ls as [| l2 ls].
    + simpl. rewrite orb_false_r. reflexivity.
    + change (join [nl] (l :: l2 :: ls))
        with (l ++ nl :: join [nl] (l2 :: ls)).
      rewrite (contains_app_sep sub l nl (join [nl] (l2 :: ls)) Hne Hnl), IH.
      reflexivity.
Qed.

Lemma contains_skip_spaces (s0 : char) (sub ws y : str) :
  all_space ws -> is_space s0 = false ->
  contains (s0 :: sub) (ws ++ y) = contains (s0 :: sub) y.
Proof.
  intros Hws Hs0. induction ws as [| w ws IH]; [reflexivity |].
  rewrite (contains_unfold _ ((w :: ws) ++ y)). simpl app. cbv iota.
  rewrite IH by (intros x Hx; apply Hws; right; exact Hx).
  replace (startswith (s0 :: sub) (w :: ws ++ y)) with false;
    [reflexivity |].
  simpl. destruct (N.eqb_spec s0 w) as [E | _]; [| reflexivity].
  rewrite E, (Hws w (or_introl eq_refl)) in Hs0. discriminate.
Qed.

(** *** Replacing the misspelt directive *)

Local Abbreviation thme := [33; 116; 104; 109; 101]%N.
Local Abbreviation theme := [33; 116; 104; 101; 109; 101]%N.

Lemma startswith_replaced (p s : str) :
  ~ In 33%N p ->
  startswith p (replace_go thme theme 0 s) = startswith p s.
Proof.
  revert p. induction s as [| c s IH]; intros p Hp; [reflexivity |].
  destruct p as [| a p]; [reflexivity |].
  assert (Ha : (a =? 33)%N = false).
  { apply N.eqb_neq. intros E. apply Hp. left. exact E. }
  assert (Hp' : ~ In 33%N p) by (intros H; apply Hp; right; exact H).
  cbn [replace_go].
  destruct (startswith thme (c :: s)) eqn:E.
  - apply startswith_inv in E. destruct E as [r E].
    injection E as -> _. simpl. rewrite Ha. reflexivity.
  - simpl. rewrite (IH p Hp'). reflexivity.
Qed.

Lemma replaced_has_no_thme (s : str) (k : nat) :
  contains thme (replace_go thme theme k s) = false.
Proof.
  revert k. induction s as [| c s IH]; intros k; [reflexivity |].
  destruct k as [| k]; cbn [replace_go]; [| apply IH].
  destruct (startswith thme (c :: s)) eqn:E.
  - cbn [app].
    rewrite !contains_unfold. cbv iota.
    rewrite <- contains_unfold. rewrite IH. reflexivity.
  - rewrite contains_unfold. cbv iota. rewrite IH, orb_false_r.
    assert (Hs : forall x y,
               startswith thme (x :: y)
               = (33 =? x)%N && startswith [116; 104; 109; 101]%N y)
      by reflexivity.
    rewrite Hs in E |- *.
    rewrite startswith_replaced; [exact E |].
    simpl. intuition discriminate.
Qed.

Lemma replace_thme (s : str) :
  contains (lit "!thme") (replace (lit "!thme") (lit "!theme") s) = false.
Proof. exact (replaced_has_no_thme s 0). Qed.

End PyFacts.

(* ===================================================================== *)
(** ** Scenarios: the program run on the sample texts *)
(* ===================================================================== *)

Module Scenarios.
Import Samples Fixer Generator.

Section WithUnicode.
Context {U : Unicode}.

(** C10: on the empty text the repair returns the empty text and exactly
    one diagnostic, the report of the remaining error "empty code"; a
    non-empty diagnostics list therefore does not mean that the text was
    changed. *)
Theorem auto_fix_empty_text :
  fst (auto_fix_plantuml []) = []
  /\ snd (auto_fix_plantuml [])
     = [lit "Остающиеся ошибки после автоматического исправления: Пустой PlantUML код"]
  /\ snd (auto_fix_plantuml [])
     = [remaining_msg (snd (validate_plantuml_syntax []))]
  /\ length (snd (auto_fix_plantuml [])) = 1.
Proof. repeat (apply conj); vm_compute; reflexivity. Qed.

(** C5: on the text with one unclosed conditional and no end marker the
    repair inserts exactly one line, [endif], before the end of the text
    (right after the opening line) and no other closing line: the lines
    of the result are the lines of the input with [endif] inserted at
    index 2. *)
Theorem auto_fix_unclosed_if :
  fst (auto_fix_plantuml unclosed_if) = unclosed_if_fixed
  /\ split [nl] (fst (auto_fix_plantuml unclosed_if))
     = insert_at 2 (lit "endif") (split [nl] unclosed_if)
  /\ length (filter closes_if (split [nl] unclosed_if)) = 0
  /\ length (filter closes_if
               (split [nl] (fst (auto_fix_plantuml unclosed_if)))) = 1.
Proof. repeat (apply conj); vm_compute; reflexivity. Qed.

(** C6: on the same text the validation answers "not valid" and reports
    the missing end marker and the mismatch of the [if] and [endif]
    counts. *)
Theorem validate_unclosed_if :
  validate_plantuml_syntax unclosed_if
  = (false,
     [lit "Отсутствует @enduml";
      lit "Несоответствие количества if (1) и endif (0)"]).
Proof. vm_compute; reflexivity. Qed.

(** C9: the single line [A[User] --> B((Login))] registers [A] as an
    actor with text [User] and [B] as a use case with text [Login], and
    the diagram has exactly one relationship line, [A --> B]: solid
    connector, no label. *)
Theorem usecase_user_login :
  usecase_parse user_login
  = Ok {| actors := [(lit "A", lit "User")];
          usecases := [(lit "B", lit "Login")];
          relations := [(lit "A", lit "B", lit "-->", [])];
          uc_source_id := Some (lit "A") |}
  /\ map relation_line [(lit "A", lit "B", lit "-->", [])]
     = [lit "A --> B"]
  /\ generateUseCaseDiagram [(usecase_key, user_login)]
     = Ok (join [nl] user_login_diagram).
Proof. repeat (apply conj); vm_compute; reflexivity. Qed.

(** C1 fails on the code: a relationship line whose source side has
    neither node form is not skipped.  As the first such line it raises
    [UnboundLocalError]; after a well-formed line it is emitted with the
    source identifier of that earlier line. *)
Theorem usecase_bare_source_not_skipped :
  generateUseCaseDiagram [(usecase_key, bare_source)]
  = Raise (UnboundLocalError "source_id")
  /\ (exists st,
        usecase_parse bare_source_second = Ok st
        /\ map relation_line (relations st)
           = [lit "A --> B"; lit "A --> C"]).
Proof.
  split; [vm_compute; reflexivity|].
  eexists; split; [vm_compute; reflexivity|].
  vm_compute; reflexivity.
Qed.

End WithUnicode.
End Scenarios.

(* ===================================================================== *)
(** ** The process-flow translator: which lines an edge contributes *)
(* ===================================================================== *)

Module FlowFacts.
Import Samples Generator.

Section WithUnicode.
Context {U : Unicode}.

Lemma get_some_mem (V : Type) (k : str) (d : Dict.t V) (v : V) :
  Dict.get k d = Some v -> Dict.mem k d = true.
Proof. unfold Dict.mem; intros ->; reflexivity. Qed.

Lemma get_some_not_empty (V : Type) (k : str) (d : Dict.t V) (v : V) :
  Dict.get k d = Some v -> Dict.is_empty d = false.
Proof. destruct d; [discriminate | reflexivity]. Qed.

Lemma mem_false_get (V : Type) (k : str) (d : Dict.t V) :
  Dict.mem k d = false -> Dict.get k d = None.
Proof. unfold Dict.mem; destruct (Dict.get k d); [discriminate | reflexivity]. Qed.

(** The guard of the emitting loop. *)
Lemma edge_lines_dangling (nodes : Dict.t str) (s t l : str) :
  Dict.mem s nodes = false \/ Dict.mem t nodes = false ->
  edge_lines nodes (s, t, l) = [].
Proof.
  intros [H | H]; apply mem_false_get in H; unfold edge_lines; rewrite H.
  - reflexivity.
  - destruct (Dict.get s nodes); reflexivity.
Qed.

Lemma bpmn_body_split (nodes : Dict.t str) (cs1 cs2 : list edge) (e : edge) :
  nodes <> [] ->
  bpmn_body nodes (cs1 ++ e :: cs2)
  = bpmn_body nodes cs1 ++ edge_lines nodes e
    ++ flat_map (edge_lines nodes) cs2.
Proof.
  destruct nodes as [| [k v] rest]; [congruence | intros _].
  unfold bpmn_body. rewrite flat_map_app. reflexivity.
Qed.

Lemma bpmn_body_drop (nodes : Dict.t str) (cs1 cs2 : list edge) (e : edge) :
  edge_lines nodes e = [] ->
  bpmn_body nodes (cs1 ++ e :: cs2) = bpmn_body nodes (cs1 ++ cs2).
Proof.
  intros He. destruct nodes as [| [k v] rest]; [reflexivity |].
  unfold bpmn_body. rewrite !flat_map_app. simpl. rewrite He. reflexivity.
Qed.

(** The translator on a dictionary that has the notation field. *)
Lemma generate_parsed (processData : Dict.t str) (code : str)
  (st : bpmn_state) :
  Dict.get bpmn_key processData = Some code ->
  bpmn_parse code = Ok st ->
  generateBPMNDiagram processData
  = Ok (join [nl] (bpmn_emit (nodes st) (connections st))).
Proof.
  intros Hget Hparse. unfold generateBPMNDiagram.
  change (lit "bpmn_mermaid") with bpmn_key.
  rewrite (get_some_not_empty _ _ _ _ Hget), (get_some_mem _ _ _ _ Hget), Hget.
  simpl. rewrite Hparse. reflexivity.
Qed.

Lemma transition_not_if (label target_text : str) :
  startswith (lit "if ") (transition label target_text) = false
  /\ startswith (lit "-->") (transition label target_text) = true.
Proof. unfold transition; destruct (is_empty label); split; reflexivity. Qed.

(** C2, amended: the empty dictionary gives the skeleton of start
    marker, title and end marker; a dictionary whose notation field is
    the empty text gives the full style header followed by the
    separator, the transition to the final pseudo-state and the end
    marker. *)
Theorem skeleton_only_without_field :
  generateBPMNDiagram []
  = Ok (text ["@startuml"; "title BPMN Diagram"; "@enduml"]%string)
  /\ generateBPMNDiagram [(bpmn_key, [])]
     = Ok (join [nl] bpmn_empty_notation).
Proof. split; vm_compute; reflexivity. Qed.

(** C8: an edge of the parsed connection list whose source or target
    identifier is not in the node table contributes no line: the
    translator returns, without raising, the text it returns for the
    connection list without that edge. *)
Theorem dangling_edge_contributes_nothing
  (processData : Dict.t str) (code : str) (st : bpmn_state)
  (cs1 cs2 : list edge) (s t l : str) :
  Dict.get bpmn_key processData = Some code ->
  bpmn_parse code = Ok st ->
  connections st = cs1 ++ (s, t, l) :: cs2 ->
  Dict.mem s (nodes st) = false \/ Dict.mem t (nodes st) = false ->
  edge_lines (nodes st) (s, t, l) = []
  /\ bpmn_emit (nodes st) (connections st)
     = bpmn_emit (nodes st) (cs1 ++ cs2)
  /\ generateBPMNDiagram processData
     = Ok (join [nl] (bpmn_emit (nodes st) (cs1 ++ cs2))).
Proof.
  intros Hget Hparse Hcs Hdang.
  pose proof (edge_lines_dangling _ _ _ l Hdang) as He.
  assert (Hemit : bpmn_emit (nodes st) (connections st)
                  = bpmn_emit (nodes st) (cs1 ++ cs2)).
  { unfold bpmn_emit. rewrite Hcs, (bpmn_body_drop _ _ _ _ He). reflexivity. }
  repeat split; auto.
  rewrite (generate_parsed _ _ _ Hget Hparse), Hemit. reflexivity.
Qed.

(** C7, amended: an edge of the parsed connection list whose source and
    target are both in the node table contributes, at its place in edge
    order, a conditional block ([if "source" then] and an indented
    transition) when the source text has a question mark or, in lower
    case, one of the two interrogative substrings, and otherwise one
    plain transition, which opens no conditional. *)
Theorem registered_edge_emitted
  (processData : Dict.t str) (code : str) (st : bpmn_state)
  (cs1 cs2 : list edge) (s t l source_text target_text : str) :
  Dict.get bpmn_key processData = Some code ->
  bpmn_parse code = Ok st ->
  connections st = cs1 ++ (s, t, l) :: cs2 ->
  Dict.get s (nodes st) = Some source_text ->
  Dict.get t (nodes st) = Some target_text ->
  let marked :=
    contains (lit "?") source_text
    || contains (lit "как") (lower source_text)
    || contains (lit "ли") (lower source_text) in
  let block :=
    if marked
    then [lit "if " ++ dq ++ source_text ++ dq ++ lit " then";
          lit "  " ++ transition l target_text]
    else [transition l target_text] in
  edge_lines (nodes st) (s, t, l) = block
  /\ existsb (startswith (lit "if ")) block = marked
  /\ generateBPMNDiagram processData
     = Ok (join [nl]
             (bpmn_header ++ [lit "|"] ++ bpmn_body (nodes st) cs1
              ++ block ++ flat_map (edge_lines (nodes st)) cs2
              ++ bpmn_footer)).
Proof.
  intros Hget Hparse Hcs Hs Ht marked block.
  assert (He : edge_lines (nodes st) (s, t, l) = block).
  { unfold edge_lines. rewrite Hs, Ht. reflexivity. }
  repeat split.
  - exact He.
  - subst block. destruct marked; [reflexivity |].
    cbn [existsb]. destruct (transition_not_if l target_text) as [-> _].
    reflexivity.
  - rewrite (generate_parsed _ _ _ Hget Hparse). unfold bpmn_emit.
    rewrite Hcs, bpmn_body_split, He.
    + rewrite <- !app_assoc. reflexivity.
    + intros Hn. rewrite Hn in Hs. discriminate.
Qed.

End WithUnicode.

(** The closed instances below run the program with the tables for
    Basic Latin and Cyrillic. *)
#[local] Existing Instance latin_cyrillic.

(** The guard at work: [A[ok?] --> B] leaves [B] out of the node table. *)
Lemma dangling_edge_witness :
  let st := {| nodes := [(lit "A", lit "ok?")];
               connections := [(lit "A", lit "B", [])];
               source_id := Some (lit "A") |} in
  edge_lines (nodes st) (lit "A", lit "B", []) = []
  /\ bpmn_emit (nodes st) (connections st)
     = bpmn_emit (nodes st) []
  /\ generateBPMNDiagram [(bpmn_key, dangling_decision)]
     = Ok (join [nl] (bpmn_emit (nodes st) [])).
Proof.
  intros st.
  apply (@dangling_edge_contributes_nothing latin_cyrillic
           [(bpmn_key, dangling_decision)] dangling_decision st
           [] [] (lit "A") (lit "B") []).
  - reflexivity.
  - vm_compute; reflexivity.
  - reflexivity.
  - right; reflexivity.
Defined.

Lemma registered_edge_witness :
  let st := {| nodes := [(lit "A", lit "ok?"); (lit "B", lit "Done")];
               connections := [(lit "A", lit "B", lit "yes")];
               source_id := Some (lit "A") |} in
  let block :=
    [lit "if " ++ dq ++ lit "ok?" ++ dq ++ lit " then";
     lit "  " ++ transition (lit "yes") (lit "Done")] in
  edge_lines (nodes st) (lit "A", lit "B", lit "yes")
  = block
  /\ existsb (startswith (lit "if ")) block = true
  /\ generateBPMNDiagram [(bpmn_key, decision_edge)]
     = Ok (join [nl]
             (bpmn_header ++ [lit "|"] ++ bpmn_body (nodes st) []
              ++ block ++ [] ++ bpmn_footer)).
Proof.
  intros st block.
  apply (@registered_edge_emitted latin_cyrillic
           [(bpmn_key, decision_edge)] decision_edge st
           [] [] (lit "A") (lit "B") (lit "yes") (lit "ok?") (lit "Done")).
  - reflexivity.
  - vm_compute; reflexivity.
  - reflexivity.
  - reflexivity.
  - reflexivity.
Defined.

(** C7 as stated fails: the edge of [A[ok?] --> B] has a source text with
    a question mark, yet no line of the diagram opens a conditional. *)
Lemma decision_edge_without_block :
  bpmn_parse dangling_decision
  = Ok {| nodes := [(lit "A", lit "ok?")];
          connections := [(lit "A", lit "B", [])];
          source_id := Some (lit "A") |}
  /\ contains (lit "?") (lit "ok?") = true
  /\ generateBPMNDiagram [(bpmn_key, dangling_decision)]
     = Ok (join [nl] dangling_decision_diagram)
  /\ existsb (fun line => startswith (lit "if ") (strip line))
       dangling_decision_diagram = false.
Proof. repeat (apply conj); vm_compute; reflexivity. Qed.

(** C2 as stated fails: the empty dictionary and the empty notation text
    do not give the same diagram. *)
Lemma empty_notation_differs :
  generateBPMNDiagram [(bpmn_key, [])]
  <> generateBPMNDiagram [].
Proof. vm_compute; discriminate. Qed.

End FlowFacts.

(* ===================================================================== *)
(** ** The repair pass *)
(* ===================================================================== *)

Module RepairFacts.
Import Samples Fixer PyFacts.

Section WithUnicode.
Context {U : Unicode}.

(** *** White space at the ends *)

Lemma rstrip_prefix (l : str) : exists w, l = rstrip l ++ w.
Proof.
  induction l as [| c l [w IH]]; [exists []; reflexivity |].
  simpl. destruct (rstrip l) as [| r0 r] eqn:E.
  - destruct (is_space c).
    + exists (c :: l). reflexivity.
    + exists l. reflexivity.
  - exists w. simpl. f_equal. exact IH.
Qed.

Lemma rstrip_incl (l : str) (x : char) : In x (rstrip l) -> In x l.
Proof.
  intros H. destruct (rstrip_prefix l) as [w Hw]. rewrite Hw.
  apply in_or_app. left. exact H.
Qed.

(** *** The balance repair only inserts [endif] lines *)

Lemma scan_line_fst (fl : list str) (stk : list nat) (il : nat * str) :
  fst (scan_line (fl, stk) il) = fl ++ [snd il].
Proof.
  destruct il as [i line]. unfold scan_line. simpl snd.
  destruct (startswith (lit "if ") (strip line)); [reflexivity |].
  destruct (startswith (lit "endif") (strip line)); reflexivity.
Qed.

Lemma scan_lines_fst (ils : list (nat * str)) (st : list str * list nat) :
  fst (fold_left scan_line ils st) = fst st ++ map snd ils.
Proof.
  revert st. induction ils as [| il ils IH]; intros [fl stk];
    cbn [fold_left].
  - simpl. rewrite app_nil_r. reflexivity.
  - rewrite IH, scan_line_fst. simpl. rewrite <- app_assoc. reflexivity.
Qed.

Lemma map_snd_enumerate (ls : list str) (n : nat) :
  map snd (combine (seq n (length ls)) ls) = ls.
Proof.
  revert n. induction ls as [| l ls IH]; intros n; [reflexivity |].
  simpl. rewrite IH. reflexivity.
Qed.

(** The text after the balance repair: the lines of the input with
    [endif] lines inserted, one for each entry left on the stack. *)
Lemma validate_if_structure_lines (code : str) :
  exists if_stack,
    _validate_if_structure code
    = join [nl] (fold_left close_if if_stack (split [nl] code)).
Proof.
  unfold _validate_if_structure.
  destruct (fold_left scan_line
              (combine (seq 0 (length (split [nl] code))) (split [nl] code))
              ([], [])) as [fl stk] eqn:E.
  exists stk.
  pose proof (scan_lines_fst
                (combine (seq 0 (length (split [nl] code)))
                   (split [nl] code)) ([], [])) as H.
  rewrite E, map_snd_enumerate in H. simpl in H. rewrite H. reflexivity.
Qed.

Lemma insert_at_in (i : nat) (x y : str) (l : list str) :
  In y (insert_at i x l) <-> y = x \/ In y l.
Proof.
  unfold insert_at. rewrite in_app_iff. simpl.
  assert (H : In y l <-> In y (firstn i l) \/ In y (skipn i l)).
  { rewrite <- in_app_iff, firstn_skipn. reflexivity. }
  rewrite H. intuition congruence.
Qed.

Lemma close_if_in (ls : list str) (i : nat) (y : str) :
  In y (close_if ls i) <-> y = lit "endif" \/ In y ls.
Proof.
  unfold close_if.
  destruct (find_nonblank (skipn (S i) ls) (S i)).
  - apply insert_at_in.
  - rewrite in_app_iff. simpl. intuition congruence.
Qed.

Lemma close_all_keeps (stk : list nat) (ls : list str) (y : str) :
  In y ls -> In y (fold_left close_if stk ls).
Proof.
  revert ls. induction stk as [| i stk IH]; intros ls H; [exact H |].
  simpl. apply IH. apply close_if_in. right. exact H.
Qed.

Lemma close_all_inv (stk : list nat) (ls : list str) (y : str) :
  In y (fold_left close_if stk ls) -> y = lit "endif" \/ In y ls.
Proof.
  revert ls. induction stk as [| i stk IH]; intros ls H; [right; exact H |].
  simpl in H. apply IH in H. destruct H as [H | H]; [left; exact H |].
  apply close_if_in in H. exact H.
Qed.

Lemma no_nl_endif : no_nl (lit "endif").
Proof.
  intros H. vm_compute in H. intuition discriminate.
Qed.

(** The lines of the repaired text, for a text given by its lines. *)
Lemma validate_if_structure_split (ls : list str) :
  ls <> [] -> Forall no_nl ls ->
  exists if_stack,
    split [nl] (_validate_if_structure (join [nl] ls))
    = fold_left close_if if_stack ls.
Proof.
  intros Hne Hall.
  destruct (validate_if_structure_lines (join [nl] ls)) as [stk Hstk].
  exists stk. rewrite Hstk, (split_join _ Hne Hall).
  apply split_join.
  - destruct ls as [| l ls]; [congruence |].
    intros Hnil.
    pose proof (close_all_keeps stk (l :: ls) l (or_introl eq_refl)) as Hin.
    rewrite Hnil in Hin. destruct Hin.
  - apply Forall_forall. intros y Hy.
    apply close_all_inv in Hy. destruct Hy as [-> | Hy].
    + exact no_nl_endif.
    + rewrite Forall_forall in Hall. apply Hall. exact Hy.
Qed.

(** *** The three stages of the repair *)

Lemma fix_then_fst (st : str * list str) :
  fst (fix_then st) = join [nl] (map then_line (split [nl] (fst st))).
Proof.
  destruct st as [code fixes]. unfold fix_then. simpl.
  rewrite map_map. reflexivity.
Qed.

Lemma fix_then_snd (st : str * list str) :
  snd (fix_then st)
  = snd st
    ++ concat (map (fun l => snd (fix_then_line l)) (split [nl] (fst st))).
Proof.
  destruct st as [code fixes]. unfold fix_then. simpl.
  rewrite map_map. reflexivity.
Qed.

Lemma no_nl_app (a b : str) : no_nl a -> no_nl b -> no_nl (a ++ b).
Proof.
  unfold no_nl. intros Ha Hb H. apply in_app_or in H. tauto.
Qed.

Lemma then_line_no_nl (l : str) : no_nl l -> no_nl (then_line l).
Proof.
  intros Hl. unfold then_line, fix_then_line.
  destruct (startswith (lit "if ") (strip l)
            && negb (contains (lit " then") l)); simpl; [| exact Hl].
  apply no_nl_app.
  - intros H. apply Hl. apply rstrip_incl. exact H.
  - intros H. vm_compute in H. intuition discriminate.
Qed.

Lemma then_lines_no_nl (code : str) :
  map then_line (split [nl] code) <> []
  /\ Forall no_nl (map then_line (split [nl] code)).
Proof.
  split.
  - pose proof (split_not_nil code) as H.
    destruct (split [nl] code); [congruence | discriminate].
  - apply Forall_forall. intros y Hy. apply in_map_iff in Hy.
    destruct Hy as (l & <- & Hl). apply then_line_no_nl.
    pose proof (split_no_nl code) as H. rewrite Forall_forall in H.
    apply H. exact Hl.
Qed.

Lemma auto_fix_valid (t : str) :
  fst (validate_plantuml_syntax t) = true -> auto_fix_plantuml t = (t, []).
Proof.
  unfold auto_fix_plantuml.
  destruct (validate_plantuml_syntax t) as [v errs]. simpl.
  intros ->. reflexivity.
Qed.

Lemma auto_fix_invalid (t : str) :
  fst (validate_plantuml_syntax t) = false ->
  let fixed_code := _validate_if_structure (fst (then_fixed t)) in
  let remaining := snd (validate_plantuml_syntax fixed_code) in
  auto_fix_plantuml t
  = (fixed_code,
     if Nat.eqb (length remaining) 0 then snd (then_fixed t)
     else snd (then_fixed t) ++ [remaining_msg remaining]).
Proof.
  unfold auto_fix_plantuml.
  destruct (validate_plantuml_syntax t) as [v errs]. simpl.
  intros ->. destruct (then_fixed t) as [code3 fixes3]. simpl.
  destruct (validate_plantuml_syntax (_validate_if_structure code3)).
  reflexivity.
Qed.

(** The lines of the text the repair returns for a text that fails
    validation: those after fix 3, with [endif] lines inserted. *)
Lemma auto_fix_lines (t : str) :
  fst (validate_plantuml_syntax t) = false ->
  exists if_stack,
    split [nl] (fst (auto_fix_plantuml t))
    = fold_left close_if if_stack
        (map then_line (split [nl] (fst (colon_fixed t)))).
Proof.
  intros Hinv. rewrite (auto_fix_invalid t Hinv). simpl fst.
  unfold then_fixed. rewrite fix_then_fst.
  destruct (then_lines_no_nl (fst (colon_fixed t))) as [Hne Hall].
  apply validate_if_structure_split; assumption.
Qed.

Lemma auto_fix_logs (t msg : str) :
  fst (validate_plantuml_syntax t) = false ->
  In msg (snd (then_fixed t)) -> In msg (snd (auto_fix_plantuml t)).
Proof.
  intros Hinv Hin. rewrite (auto_fix_invalid t Hinv). simpl snd.
  destruct (Nat.eqb _ 0); [exact Hin |].
  apply in_or_app. left. exact Hin.
Qed.

(** C3, amended: the repair is gated by the validation.  A text that
    passes validation is returned unchanged, without diagnostics.  For a
    text that fails validation, every line of the text after fixes 1 and
    2 whose stripped form starts with [if ] and which does not contain
    [ then] is in the result with its trailing white space replaced by
    [ then], and is logged; and every line of the result whose stripped
    form starts with [if ] contains [ then]. *)
Theorem then_appended_behind_gate (t : str) :
  if fst (validate_plantuml_syntax t)
  then auto_fix_plantuml t = (t, [])
  else
    (forall line,
        In line (split [nl] (fst (colon_fixed t))) ->
        startswith (lit "if ") (strip line) = true ->
        contains (lit " then") line = false ->
        In (rstrip line ++ lit " then")
          (split [nl] (fst (auto_fix_plantuml t)))
        /\ In (lit "Добавлено 'then' после if в строке: " ++ strip line)
             (snd (auto_fix_plantuml t)))
    /\ (forall line,
           In line (split [nl] (fst (auto_fix_plantuml t))) ->
           startswith (lit "if ") (strip line) = true ->
           contains (lit " then") line = true).
Proof.
  destruct (fst (validate_plantuml_syntax t)) eqn:Hv.
  - apply auto_fix_valid. exact Hv.
  - destruct (auto_fix_lines t Hv) as [stk Hlines]. split.
    + intros line Hin Hif Hthen.
      assert (Hline : fix_then_line line
                      = (rstrip line ++ lit " then",
                         [lit "Добавлено 'then' после if в строке: "
                          ++ strip line])).
      { unfold fix_then_line. rewrite Hif, Hthen. reflexivity. }
      split.
      * rewrite Hlines. apply close_all_keeps.
        apply in_map_iff. exists line. split; [| exact Hin].
        unfold then_line. rewrite Hline. reflexivity.
      * apply auto_fix_logs; [exact Hv |].
        unfold then_fixed. rewrite fix_then_snd.
        apply in_or_app. right. apply in_concat.
        exists [lit "Добавлено 'then' после if в строке: " ++ strip line].
        split; [| left; reflexivity].
        apply in_map_iff. exists line. split; [| exact Hin].
        rewrite Hline. reflexivity.
    + intros line Hin Hif. rewrite Hlines in Hin.
      apply close_all_inv in Hin. destruct Hin as [-> | Hin].
      * vm_compute in Hif. discriminate.
      * apply in_map_iff in Hin. destruct Hin as (l & <- & _).
        unfold then_line, fix_then_line in *.
        destruct (startswith (lit "if ") (strip l)) eqn:E1;
          destruct (contains (lit " then") l) eqn:E2; simpl in *;
          try congruence.
        apply contains_app_r.
Qed.

(** *** Lines on which the colon patterns do not match *)

Lemma match_colon_none_head (kw ws : str) (c : char) (y : str) :
  all_space ws -> is_space c = false -> c <> 58%N ->
  Re.match_colon kw (ws ++ c :: y) = None.
Proof.
  intros Hws Hc Hne. unfold Re.match_colon.
  rewrite (span_space_app _ _ y Hws Hc).
  change (lit ":" ++ kw) with (58%N :: kw). cbn [startswith].
  destruct (N.eqb_spec 58 c) as [E | _]; [congruence | reflexivity].
Qed.

Lemma skipn_prefix (p r : str) : skipn (length p) (p ++ r) = r.
Proof. induction p as [| a p IH]; [reflexivity | exact IH]. Qed.

Lemma match_colon_some (kw l ws rest : str) :
  Re.match_colon kw l = Some (ws, rest) ->
  all_space ws /\ l = ws ++ 58%N :: kw ++ rest.
Proof.
  unfold Re.match_colon. intros H.
  pose proof (span_decomp is_space l) as Hl.
  pose proof (span_space_all l) as Hws.
  destruct (span is_space l) as [ws' r]. simpl in Hl, Hws.
  destruct (startswith (lit ":" ++ kw) r) eqn:E; [| discriminate].
  destruct (Re.word_end (skipn (S (length kw)) r)); [| discriminate].
  cbn [andb] in H. injection H as <- <-.
  apply startswith_inv in E. destruct E as [rr ->].
  split; [exact Hws |].
  rewrite Hl. change (lit ":" ++ kw) with (58%N :: kw). cbn [app].
  rewrite skipn_prefix. reflexivity.
Qed.

Lemma sub_colon_unchanged (kw l : str) :
  Re.match_colon kw l = None -> Re.sub_colon kw l = l.
Proof. unfold Re.sub_colon. intros ->. reflexivity. Qed.

Lemma sub_colon_some (kw l ws rest : str) :
  Re.match_colon kw l = Some (ws, rest) ->
  Re.sub_colon kw l = ws ++ kw ++ rest.
Proof. unfold Re.sub_colon. intros ->. reflexivity. Qed.

(** The keywords start with a letter. *)
Lemma keyword_head (kw : str) :
  In kw patterns_to_fix ->
  exists k0 k, kw = k0 :: k /\ is_space k0 = false /\ k0 <> 58%N
               /\ no_nl kw.
Proof.
  intros H. vm_compute in H.
  repeat (destruct H as [<- | H];
          [eexists _, _;
           split; [reflexivity |]; split; [reflexivity |];
           split; [discriminate
                  | intros Hn; vm_compute in Hn; intuition discriminate]
          |]).
  destruct H.
Qed.

Lemma sub_colon_settles (kw kw' l : str) (m : str * str) :
  In kw patterns_to_fix ->
  Re.match_colon kw l = Some m ->
  Re.match_colon kw' (Re.sub_colon kw l) = None.
Proof.
  intros Hkw Hm. destruct m as [ws rest].
  rewrite (sub_colon_some _ _ _ _ Hm).
  destruct (match_colon_some _ _ _ _ Hm) as [Hws _].
  destruct (keyword_head _ Hkw) as (k0 & k & -> & Hsp & Hne & _).
  apply match_colon_none_head; assumption.
Qed.

Lemma sub_colon_fold_clean (kws : list str) (l : str) :
  (forall kw, In kw kws -> Re.match_colon kw l = None) ->
  fold_left (fun l kw => Re.sub_colon kw l) kws l = l.
Proof.
  induction kws as [| k kws IH]; intros H; [reflexivity |].
  simpl. rewrite (sub_colon_unchanged _ _ (H k (or_introl eq_refl))).
  apply IH. intros kw Hkw. apply H. right. exact Hkw.
Qed.

Lemma sub_colon_fold_none (todo done : list str) (l : str) :
  (forall kw, In kw todo -> In kw patterns_to_fix) ->
  (forall kw, In kw done -> Re.match_colon kw l = None) ->
  forall kw, In kw (done ++ todo) ->
    Re.match_colon kw (fold_left (fun l kw => Re.sub_colon kw l) todo l)
    = None.
Proof.
  revert done l. induction todo as [| k todo IH]; intros done l Hpat Hdone.
  - rewrite app_nil_r. exact Hdone.
  - intros kw Hkw. simpl.
    destruct (Re.match_colon k l) as [m |] eqn:E.
    + rewrite sub_colon_fold_clean.
      * apply (sub_colon_settles _ _ _ _ (Hpat k (or_introl eq_refl)) E).
      * intros kw' _.
        apply (sub_colon_settles _ _ _ _ (Hpat k (or_introl eq_refl)) E).
    + rewrite (sub_colon_unchanged _ _ E).
      apply (IH (done ++ [k])).
      * intros kw' H'. apply Hpat. right. exact H'.
      * intros kw' H'. apply in_app_or in H'.
        destruct H' as [H' | [<- | []]]; [apply Hdone; exact H' | exact E].
      * rewrite <- app_assoc. exact Hkw.
Qed.

Lemma colon_line_none (l kw : str) :
  In kw patterns_to_fix -> Re.match_colon kw (colon_line l) = None.
Proof.
  intros Hkw. unfold colon_line.
  apply (sub_colon_fold_none patterns_to_fix [] l); auto.
  intros kw' [].
Qed.

(** *** The misspelt directive does not come back *)

Lemma sub_colon_no_thme (kw l : str) :
  contains (lit "!thme") l = false ->
  contains (lit "!thme") (Re.sub_colon kw l) = false.
Proof.
  intros Hl. destruct (Re.match_colon kw l) as [[ws rest] |] eqn:E.
  - rewrite (sub_colon_some _ _ _ _ E).
    destruct (match_colon_some _ _ _ _ E) as [Hws Heq].
    change (lit "!thme") with (33%N :: [116; 104; 109; 101]%N) in *.
    rewrite contains_skip_spaces by (exact Hws || reflexivity).
    destruct (contains _ (kw ++ rest)) eqn:C; [| reflexivity].
    rewrite <- Hl, Heq.
    replace (ws ++ 58%N :: kw ++ rest)
      with ((ws ++ [58%N]) ++ (kw ++ rest) ++ [])
      by (rewrite app_nil_r, <- app_assoc; reflexivity).
    symmetry. apply contains_inside. exact C.
  - rewrite (sub_colon_unchanged _ _ E). exact Hl.
Qed.

Lemma colon_line_no_thme (l : str) :
  contains (lit "!thme") l = false ->
  contains (lit "!thme") (colon_line l) = false.
Proof.
  unfold colon_line. generalize patterns_to_fix as kws.
  intros kws. revert l. induction kws as [| k kws IH]; intros l Hl.
  - exact Hl.
  - simpl. apply IH. apply sub_colon_no_thme. exact Hl.
Qed.

Lemma fix_theme_no_thme (t : str) :
  contains (lit "!thme") (fst (fix_theme (t, []))) = false.
Proof.
  unfold fix_theme. destruct (contains (lit "!thme") t) eqn:E.
  - simpl. apply replace_thme.
  - exact E.
Qed.

(** *** Fix 2 line by line *)

Lemma sub_colon_no_nl (kw l : str) :
  In kw patterns_to_fix -> no_nl l -> no_nl (Re.sub_colon kw l).
Proof.
  intros Hkw Hl. destruct (Re.match_colon kw l) as [[ws rest] |] eqn:E.
  - rewrite (sub_colon_some _ _ _ _ E).
    destruct (match_colon_some _ _ _ _ E) as [_ Heq].
    destruct (keyword_head _ Hkw) as (_ & _ & _ & _ & _ & Hnl).
    intros H. apply in_app_or in H. destruct H as [H | H].
    + apply Hl. rewrite Heq. apply in_or_app. left. exact H.
    + apply in_app_or in H. destruct H as [H | H]; [exact (Hnl H) |].
      apply Hl. rewrite Heq. apply in_or_app. right. right.
      apply in_or_app. right. exact H.
  - rewrite (sub_colon_unchanged _ _ E). exact Hl.
Qed.

Lemma fix_colon_fst (st : str * list str) (kw : str) :
  fst (fix_colon st kw)
  = join [nl] (map (Re.sub_colon kw) (split [nl] (fst st))).
Proof.
  destruct st as [code fixes]. unfold fix_colon. simpl.
  rewrite map_map. reflexivity.
Qed.

Lemma fix_colon_fold_lines (kws : list str) (ls : list str)
  (fixes : list str) :
  (forall kw, In kw kws -> In kw patterns_to_fix) ->
  ls <> [] -> Forall no_nl ls ->
  fst (fold_left fix_colon kws (join [nl] ls, fixes))
  = join [nl]
      (map (fun l => fold_left (fun l kw => Re.sub_colon kw l) kws l) ls).
Proof.
  revert ls fixes. induction kws as [| k kws IH]; intros ls fixes Hk Hne Hall.
  - simpl. rewrite map_id. reflexivity.
  - cbn [fold_left].
    destruct (fix_colon (join [nl] ls, fixes) k) as [code' fixes'] eqn:E.
    pose proof (fix_colon_fst (join [nl] ls, fixes) k) as H.
    rewrite E in H. simpl in H. rewrite (split_join _ Hne Hall) in H.
    rewrite H, IH.
    + rewrite map_map. reflexivity.
    + intros kw Hkw. apply Hk. right. exact Hkw.
    + destruct ls; [congruence | discriminate].
    + apply Forall_forall. intros y Hy. apply in_map_iff in Hy.
      destruct Hy as (l & <- & Hl). apply sub_colon_no_nl.
      * apply Hk. left. reflexivity.
      * rewrite Forall_forall in Hall. apply Hall. exact Hl.
Qed.

Lemma colon_line_no_nl (l : str) : no_nl l -> no_nl (colon_line l).
Proof.
  unfold colon_line.
  assert (H : forall kw, In kw patterns_to_fix -> In kw patterns_to_fix)
    by auto.
  revert H. generalize patterns_to_fix at 1 3 as kws.
  intros kws. revert l. induction kws as [| k kws IH]; intros l Hk Hl.
  - exact Hl.
  - simpl. apply IH.
    + intros kw Hkw. apply Hk. right. exact Hkw.
    + apply sub_colon_no_nl; [apply Hk; left; reflexivity | exact Hl].
Qed.

(** The lines after fixes 1 and 2. *)
Lemma colon_fixed_lines (t : str) :
  split [nl] (fst (colon_fixed t))
  = map colon_line (split [nl] (fst (fix_theme (t, [])))).
Proof.
  unfold colon_fixed.
  destruct (fix_theme (t, [])) as [c1 f1].
  change (fst (c1, f1)) with c1.
  pose proof (fix_colon_fold_lines patterns_to_fix (split [nl] c1) f1
                (fun kw H => H) (split_not_nil c1) (split_no_nl c1)) as H.
  rewrite join_split in H. rewrite H.
  apply split_join.
  - pose proof (split_not_nil c1). destruct (split [nl] c1);
      [congruence | discriminate].
  - apply Forall_forall. intros y Hy. apply in_map_iff in Hy.
    destruct Hy as (l & <- & Hl). apply colon_line_no_nl.
    pose proof (split_no_nl c1) as H'. rewrite Forall_forall in H'.
    apply H'. exact Hl.
Qed.

(** What holds of every line after fixes 1 and 2. *)
Lemma colon_fixed_line (t line : str) :
  In line (split [nl] (fst (colon_fixed t))) ->
  contains (lit "!thme") line = false
  /\ (forall kw, In kw patterns_to_fix -> Re.match_colon kw line = None).
Proof.
  rewrite colon_fixed_lines. intros Hin. apply in_map_iff in Hin.
  destruct Hin as (l & <- & Hl). split.
  - apply colon_line_no_thme.
    destruct (contains (lit "!thme") l) eqn:E; [| reflexivity].
    rewrite <- (fix_theme_no_thme t). symmetry.
    apply (contains_line _ _ l Hl E).
  - intros kw Hkw. apply colon_line_none. exact Hkw.
Qed.

(** *** The lines of a repaired text are settled *)

Lemma opens_if_shape (l : str) :
  startswith (lit "if ") (strip l) = true ->
  exists ws y, all_space ws /\ rstrip l = ws ++ 105%N :: y.
Proof.
  unfold strip. intros H.
  destruct (lstrip_decomp l) as (ws & Hws & Hl).
  destruct (lstrip l) as [| c r] eqn:E; [discriminate |].
  pose proof (lstrip_head _ _ _ E) as Hc.
  destruct (rstrip_cons c r Hc) as [r' Hr].
  rewrite Hr in H. apply startswith_inv in H. destruct H as [x Hx].
  injection Hx as -> _.
  exists ws, r'. split; [exact Hws |].
  rewrite Hl, rstrip_app; rewrite Hr; [reflexivity | discriminate].
Qed.

Lemma settled_endif : settled (lit "endif").
Proof.
  split; [reflexivity |]. split.
  - intros kw H. vm_compute in H.
    repeat (destruct H as [<- | H]; [vm_compute; reflexivity |]).
    destruct H.
  - intros H. vm_compute in H. discriminate.
Qed.

Lemma settled_then_line (l : str) :
  contains (lit "!thme") l = false ->
  (forall kw, In kw patterns_to_fix -> Re.match_colon kw l = None) ->
  settled (then_line l).
Proof.
  intros H1 H2. unfold then_line, fix_then_line.
  destruct (startswith (lit "if ") (strip l)) eqn:Eif;
    destruct (contains (lit " then") l) eqn:Eth; simpl;
    try (split; [exact H1 | split; [exact H2 | congruence]]).
  split; [| split].
  - change (lit " then") with (32%N :: [116; 104; 101; 110]%N).
    rewrite contains_app_sep;
      [| discriminate | intros H; vm_compute in H; intuition discriminate].
    rewrite orb_false_r.
    destruct (contains (lit "!thme") (rstrip l)) eqn:C; [| reflexivity].
    rewrite <- H1. symmetry. destruct (rstrip_prefix l) as [w Hw].
    rewrite Hw. exact (contains_inside _ [] (rstrip l) w C).
  - intros kw _. destruct (opens_if_shape l Eif) as (ws & y & Hws & ->).
    rewrite <- app_assoc. cbn [app].
    apply match_colon_none_head; [exact Hws | reflexivity | discriminate].
  - intros _. apply contains_app_r.
Qed.

Lemma auto_fix_settled (t line : str) :
  fst (validate_plantuml_syntax t) = false ->
  In line (split [nl] (fst (auto_fix_plantuml t))) ->
  settled line.
Proof.
  intros Hv Hin. destruct (auto_fix_lines t Hv) as [stk Hlines].
  rewrite Hlines in Hin. apply close_all_inv in Hin.
  destruct Hin as [-> | Hin]; [exact settled_endif |].
  apply in_map_iff in Hin. destruct Hin as (l & <- & Hl).
  destruct (colon_fixed_line t l Hl) as [H1 H2].
  apply settled_then_line; assumption.
Qed.

(** *** Fixes 1, 2 and 3 on a text of settled lines *)

Lemma eqb_refl (a : str) : Py.eqb a a = true.
Proof.
  unfold Py.eqb. destruct (list_eq_dec N.eq_dec a a); congruence.
Qed.

Lemma existsb_none (p : str -> bool) (ls : list str) :
  (forall l, In l ls -> p l = false) -> existsb p ls = false.
Proof.
  induction ls as [| l ls IH]; intros H; [reflexivity |].
  simpl. rewrite (H l (or_introl eq_refl)), IH; [reflexivity |].
  intros y Hy. apply H. right. exact Hy.
Qed.

Lemma map_pairs_id (f : str -> str * list str) (ls : list str) :
  (forall l, In l ls -> f l = (l, [])) ->
  map fst (map f ls) = ls /\ concat (map snd (map f ls)) = [].
Proof.
  induction ls as [| l ls IH]; intros H; [split; reflexivity |].
  destruct IH as [IH1 IH2]; [intros y Hy; apply H; right; exact Hy |].
  simpl. rewrite (H l (or_introl eq_refl)), IH1, IH2. split; reflexivity.
Qed.

Lemma fix_colon_settled (code kw : str) (fixes : list str) :
  (forall l, In l (split [nl] code) -> Re.match_colon kw l = None) ->
  fix_colon (code, fixes) kw = (code, fixes).
Proof.
  intros H. unfold fix_colon.
  destruct (map_pairs_id (fix_colon_line kw) (split [nl] code)) as [E1 E2].
  - intros l Hl. unfold fix_colon_line.
    rewrite (sub_colon_unchanged _ _ (H l Hl)), eqb_refl. reflexivity.
  - rewrite E1, E2, join_split, app_nil_r. reflexivity.
Qed.

Lemma fix_colon_fold_settled (kws : list str) (code : str)
  (fixes : list str) :
  (forall kw l, In kw kws -> In l (split [nl] code) ->
                Re.match_colon kw l = None) ->
  fold_left fix_colon kws (code, fixes) = (code, fixes).
Proof.
  induction kws as [| k kws IH]; intros H; [reflexivity |].
  cbn [fold_left]. rewrite fix_colon_settled.
  - apply IH. intros kw l Hkw Hl. apply H; [right; exact Hkw | exact Hl].
  - intros l Hl. apply H; [left; reflexivity | exact Hl].
Qed.

Lemma then_fixed_settled (code : str) :
  (forall l, In l (split [nl] code) -> settled l) ->
  then_fixed code = (code, []).
Proof.
  intros H. unfold then_fixed, colon_fixed.
  assert (Hth : contains (lit "!thme") code = false).
  { rewrite <- (join_split code).
    rewrite contains_join;
      [| discriminate | intros Hn; vm_compute in Hn; intuition discriminate].
    apply existsb_none. intros l Hl. apply (H l Hl). }
  unfold fix_theme. rewrite Hth.
  rewrite fix_colon_fold_settled.
  - unfold fix_then.
    destruct (map_pairs_id fix_then_line (split [nl] code)) as [E1 E2].
    + intros l Hl. destruct (H l Hl) as (_ & _ & H3).
      unfold fix_then_line.
      destruct (startswith (lit "if ") (strip l)); [| reflexivity].
      rewrite (H3 eq_refl). reflexivity.
    + rewrite E1, E2, join_split. reflexivity.
  - intros kw l Hkw Hl. destruct (H l Hl) as (_ & H2 & _).
    apply H2. exact Hkw.
Qed.

(** C4, amended: a second run logs no repair.  If the text returned by
    the first run passes validation, the second run returns it unchanged
    with no diagnostics.  Otherwise fixes 1, 2 and 3 find nothing to do,
    the second run only repeats the balance repair, and its diagnostics
    are empty or hold one entry, the report of the validation errors that
    remain, of whatever kind. *)
Theorem second_run_logs_no_repair (t : str) :
  let fixed := fst (auto_fix_plantuml t) in
  if fst (validate_plantuml_syntax fixed)
  then auto_fix_plantuml fixed = (fixed, [])
  else
    let again := _validate_if_structure fixed in
    let remaining := snd (validate_plantuml_syntax again) in
    then_fixed fixed = (fixed, [])
    /\ auto_fix_plantuml fixed
       = (again,
          if Nat.eqb (length remaining) 0 then []
          else [remaining_msg remaining]).
Proof.
  intros fixed.
  destruct (fst (validate_plantuml_syntax fixed)) eqn:Hv.
  - apply auto_fix_valid. exact Hv.
  - assert (Ht : fst (validate_plantuml_syntax t) = false).
    { destruct (fst (validate_plantuml_syntax t)) eqn:E; [| reflexivity].
      subst fixed. rewrite (auto_fix_valid t E) in Hv. simpl in Hv.
      congruence. }
    assert (Hs : then_fixed fixed = (fixed, [])).
    { apply then_fixed_settled. intros l Hl.
      apply (auto_fix_settled t l Ht Hl). }
    split; [exact Hs |].
    rewrite (auto_fix_invalid fixed Hv). rewrite Hs. simpl.
    destruct (Nat.eqb _ 0); reflexivity.
Qed.

End WithUnicode.

#[local] Existing Instance latin_cyrillic.

(** C3 as stated fails: the text passes validation, so nothing is
    appended to its line [if (x)], which has no [then]. *)
Lemma valid_text_keeps_if_without_then :
  In (lit "if (x)") (split [nl] if_without_then)
  /\ contains (lit "then") (lit "if (x)") = false
  /\ auto_fix_plantuml if_without_then = (if_without_then, []).
Proof.
  split; [right; left; reflexivity |].
  split; vm_compute; reflexivity.
Qed.

(** The gate open: validation fails for want of an end marker, and the
    line [if (x)] comes back as [if (x) then]. *)
Lemma then_appended_witness :
  In (rstrip (lit "if (x)") ++ lit " then")
    (split [nl] (fst (auto_fix_plantuml if_without_then_unfinished)))
  /\ In (lit "Добавлено 'then' после if в строке: " ++ strip (lit "if (x)"))
       (snd (auto_fix_plantuml if_without_then_unfinished)).
Proof.
  assert (Hv : fst (validate_plantuml_syntax if_without_then_unfinished)
               = false) by (vm_compute; reflexivity).
  pose proof (then_appended_behind_gate if_without_then_unfinished) as H.
  rewrite Hv in H. destruct H as [H _].
  apply (H (lit "if (x)")).
  - vm_compute. right; left; reflexivity.
  - vm_compute; reflexivity.
  - vm_compute; reflexivity.
Defined.

(** C4 as stated fails: the text has no conditional at all, the first
    run returns it as it is, and the second run still logs an entry, the
    report of the missing end marker. *)
Lemma second_run_still_reports :
  fold_left count_line (split [nl] no_end_marker) (0, 0) = (0, 0)
  /\ fst (auto_fix_plantuml no_end_marker) = no_end_marker
  /\ snd (auto_fix_plantuml (fst (auto_fix_plantuml no_end_marker)))
     = [lit "Остающиеся ошибки после автоматического исправления: Отсутствует @enduml"].
Proof. repeat (apply conj); vm_compute; reflexivity. Qed.

End RepairFacts.

(* ===================================================================== *)
(** ** More about the validation and the repair *)
(* ===================================================================== *)

Module FixerProps.
Import Samples MoreSamples Fixer PyFacts RepairFacts.

Section WithUnicode.
Context {U : Unicode}.

(** *** What a verdict of the validation means *)

Lemma contains_lines (sub t : str) :
  sub <> [] -> no_nl sub ->
  contains sub t = existsb (contains sub) (split [nl] t).
Proof.
  intros Hne Hnl. rewrite <- (join_split t) at 1.
  apply contains_join; assumption.
Qed.

Lemma flat_map_nil (A B : Type) (f : A -> list B) (l : list A) :
  flat_map f l = [] <-> (forall x, In x l -> f x = []).
Proof.
  induction l as [| a l IH]; simpl.
  - split; [intros _ x [] | reflexivity].
  - split.
    + intros H. apply app_eq_nil in H. destruct H as [Ha Hl].
      intros x [<- | Hx]; [exact Ha | apply IH; assumption].
    + intros H. rewrite (H a (or_introl eq_refl)).
      apply IH. intros x Hx. apply H. right. exact Hx.
Qed.

Lemma app_nil_iff (A : Type) (l l' : list A) :
  l ++ l' = [] <-> l = [] /\ l' = [].
Proof.
  split; [apply app_eq_nil | intros [-> ->]; reflexivity].
Qed.

Lemma find_none_iff (A : Type) (p : A -> bool) (l : list A) :
  find p l = None <-> (forall x, In x l -> p x = false).
Proof.
  induction l as [| a l IH]; simpl.
  - split; [intros _ x [] | reflexivity].
  - destruct (p a) eqn:E.
    + split; [discriminate |]. intros H.
      rewrite (H a (or_introl eq_refl)) in E. discriminate.
    + rewrite IH. split.
      * intros H x [<- | Hx]; [exact E | apply H; exact Hx].
      * intros H x Hx. apply H. right. exact Hx.
Qed.

Lemma colon_check_line (line : str) :
  match find (matches_colon line) problematic_patterns with
  | Some (_, error_msg) => [error_msg]
  | None => []
  end = []
  <-> (forall kw, In kw patterns_to_fix -> Re.match_colon kw line = None).
Proof.
  destruct (find (matches_colon line) problematic_patterns)
    as [[k m] |] eqn:E.
  - split; [discriminate |]. intros H. exfalso.
    apply find_some in E. destruct E as [Hin Hm].
    unfold matches_colon in Hm. simpl in Hm.
    rewrite (H k) in Hm; [discriminate |].
    apply (in_map fst) in Hin. exact Hin.
  - split; [| reflexivity]. intros _ kw Hkw.
    rewrite (find_none_iff _ (matches_colon line) problematic_patterns) in E.
    change patterns_to_fix with (map fst problematic_patterns) in Hkw.
    apply in_map_iff in Hkw. destruct Hkw as (pat & <- & Hpat).
    specialize (E pat Hpat). unfold matches_colon in E.
    destruct (Re.match_colon (fst pat) line); [discriminate | reflexivity].
Qed.

Lemma id_check_line (line : str) :
  match find (uses_forbidden line) forbidden_ids with
  | Some forbidden_id =>
      [lit "Использование запрещенного ID: " ++ forbidden_id]
  | None => []
  end = []
  <-> (forall id, In id forbidden_ids -> uses_forbidden line id = false).
Proof.
  destruct (find (uses_forbidden line) forbidden_ids) as [k |] eqn:E.
  - split; [discriminate |]. intros H. exfalso.
    apply find_some in E. destruct E as [Hin Hm].
    rewrite (H k Hin) in Hm. discriminate.
  - split; [| reflexivity]. intros _.
    apply (find_none_iff _ (uses_forbidden line) forbidden_ids). exact E.
Qed.

Lemma valid_verdict_spec (t : str) :
  fst (validate_plantuml_syntax t) = true
  <-> t <> []
      /\ contains (lit "@startuml") t = true
      /\ contains (lit "@enduml") t = true
      /\ fst (if_endif_counts t) = snd (if_endif_counts t)
      /\ (forall line id,
             In line (split [nl] t) -> In id forbidden_ids ->
             uses_forbidden line id = false)
      /\ (forall line kw,
             In line (split [nl] t) -> In kw patterns_to_fix ->
             Re.match_colon kw line = None)
      /\ contains (lit "!thme") t = false.
Proof.
  unfold validate_plantuml_syntax, if_endif_counts.
  destruct t as [| c t']; [simpl; split; [discriminate | intros [H _]; congruence] |].
  cbn [is_empty]. set (t := c :: t').
  rewrite (contains_lines (lit "@startuml") t);
    [| discriminate | intros Hn; vm_compute in Hn; intuition discriminate].
  rewrite (contains_lines (lit "@enduml") t);
    [| discriminate | intros Hn; vm_compute in Hn; intuition discriminate].
  destruct (fold_left count_line (split [nl] t) (0, 0)) as [i e].
  cbn [fst snd]. rewrite Nat.eqb_eq, length_zero_iff_nil.
  rewrite !app_nil_iff. rewrite !flat_map_nil.
  split.
  - intros (H1 & H2 & H3 & H4 & H5 & H6). split; [discriminate |].
    split; [destruct (existsb _ _); [reflexivity | discriminate] |].
    split; [destruct (existsb (contains (lit "@enduml")) _);
            [reflexivity | discriminate] |].
    split; [destruct (Nat.eqb_spec i e); [assumption | discriminate] |].
    split; [intros line id Hl; apply id_check_line; apply H4; exact Hl |].
    split; [intros line kw Hl; apply colon_check_line; apply H5; exact Hl |].
    destruct (contains (lit "!thme") t); [discriminate | reflexivity].
  - intros (_ & H1 & H2 & H3 & H4 & H5 & H6).
    rewrite H1, H2, H6. subst e. rewrite Nat.eqb_refl.
    repeat (apply conj); try reflexivity.
    + intros line Hl. apply id_check_line. intros id. apply H4. exact Hl.
    + intros line Hl. apply colon_check_line. intros kw. apply H5. exact Hl.
Qed.

(** X1: the validation answers "valid" exactly for a non-empty text that
    has both markers, equal counts of [if] and [endif] lines, no reserved
    identifier, no colon before a keyword at the start of a line, and no
    misspelt theme directive; and it answers "valid" exactly when it
    reports no error. *)
Theorem valid_verdict_iff (t : str) :
  (fst (validate_plantuml_syntax t) = true
   <-> t <> []
       /\ contains (lit "@startuml") t = true
       /\ contains (lit "@enduml") t = true
       /\ fst (if_endif_counts t) = snd (if_endif_counts t)
       /\ (forall line id,
              In line (split [nl] t) -> In id forbidden_ids ->
              uses_forbidden line id = false)
       /\ (forall line kw,
              In line (split [nl] t) -> In kw patterns_to_fix ->
              Re.match_colon kw line = None)
       /\ contains (lit "!thme") t = false)
  /\ (fst (validate_plantuml_syntax t) = true
      <-> snd (validate_plantuml_syntax t) = []).
Proof.
  split; [apply valid_verdict_spec |].
  unfold validate_plantuml_syntax.
  destruct (is_empty t); [split; discriminate |].
  destruct (fold_left count_line (split [nl] t) (0, 0)) as [i e].
  cbn [fst snd]. rewrite Nat.eqb_eq. apply length_zero_iff_nil.
Qed.

(** *** The balance repair: what it adds and what it reaches *)

Local Abbreviation closes_only :=
  (fun l : str => negb (opens_if l) && closes_if l).

Local Abbreviation enumerate ls := (combine (seq 0 (length ls)) ls).

Lemma counts_filter (ls : list str) (i e : nat) :
  fold_left count_line ls (i, e)
  = (i + length (filter opens_if ls), e + length (filter closes_only ls)).
Proof.
  revert i e. induction ls as [| l ls IH]; intros i e.
  - simpl. rewrite !Nat.add_0_r. reflexivity.
  - cbn [fold_left filter].
    assert (Hc : count_line (i, e) l
                 = if opens_if l then (S i, e)
                   else if closes_if l then (i, S e) else (i, e))
      by reflexivity.
    rewrite Hc.
    destruct (opens_if l); destruct (closes_if l); cbn [negb andb length];
      rewrite IH; f_equal; lia.
Qed.

Lemma counts_of_lines (ls : list str) :
  ls <> [] -> Forall no_nl ls ->
  if_endif_counts (join [nl] ls)
  = (length (filter opens_if ls), length (filter closes_only ls)).
Proof.
  intros Hne Hall. unfold if_endif_counts.
  rewrite (split_join _ Hne Hall), counts_filter. reflexivity.
Qed.

Lemma scan_line_snd (fl : list str) (stk : list nat) (il : nat * str) :
  length (snd (scan_line (fl, stk) il)) + (if closes_only (snd il) then 1 else 0)
  >= length stk + (if opens_if (snd il) then 1 else 0).
Proof.
  destruct il as [i line]. cbn [snd].
  assert (Hc : snd (scan_line (fl, stk) (i, line))
               = if opens_if line then stk ++ [i]
                 else if closes_if line then removelast stk else stk).
  { unfold scan_line, opens_if, closes_if.
    destruct (startswith (lit "if ") (strip line)); [reflexivity |].
    destruct (startswith (lit "endif") (strip line)); reflexivity. }
  rewrite Hc.
  destruct (opens_if line); destruct (closes_if line); cbn [negb andb];
    try (rewrite length_app; simpl; lia); try lia.
  destruct stk as [| a stk _] using rev_ind; [simpl; lia |].
  rewrite removelast_last, length_app. simpl. lia.
Qed.

Lemma scan_lines_snd (ils : list (nat * str)) (st : list str * list nat) :
  length (snd (fold_left scan_line ils st))
  + length (filter closes_only (map snd ils))
  >= length (snd st) + length (filter opens_if (map snd ils)).
Proof.
  revert st. induction ils as [| il ils IH]; intros [fl stk].
  - simpl. lia.
  - cbn [fold_left map filter]. specialize (IH (scan_line (fl, stk) il)).
    pose proof (scan_line_snd fl stk il) as H. cbn [snd] in *.
    destruct (opens_if (snd il)); destruct (negb _ && closes_if (snd il));
      cbn [length]; lia.
Qed.

Lemma insert_at_filter (p : str -> bool) (i : nat) (x : str)
  (l : list str) :
  length (filter p (insert_at i x l))
  = length (filter p l) + (if p x then 1 else 0).
Proof.
  unfold insert_at. rewrite <- (firstn_skipn i l) at 3.
  rewrite !filter_app, !length_app. cbn [filter].
  destruct (p x); cbn [length]; lia.
Qed.

Lemma close_if_filter (p : str -> bool) (ls : list str) (i : nat) :
  length (filter p (close_if ls i))
  = length (filter p ls) + (if p (lit "endif") then 1 else 0).
Proof.
  unfold close_if.
  destruct (find_nonblank (skipn (S i) ls) (S i)).
  - apply insert_at_filter.
  - rewrite filter_app, length_app. cbn [filter].
    destruct (p (lit "endif")); cbn [length]; lia.
Qed.

Lemma close_all_filter (p : str -> bool) (stk : list nat) (ls : list str) :
  length (filter p (fold_left close_if stk ls))
  = length (filter p ls)
    + length stk * (if p (lit "endif") then 1 else 0).
Proof.
  revert ls. induction stk as [| i stk IH]; intros ls.
  - simpl. lia.
  - cbn [fold_left length]. rewrite IH, close_if_filter. lia.
Qed.

Lemma close_all_length (stk : list nat) (ls : list str) :
  length (fold_left close_if stk ls) = length ls + length stk.
Proof.
  pose proof (close_all_filter (fun _ => true) stk ls) as H.
  assert (Hf : forall l : list str, filter (fun _ => true) l = l).
  { induction l as [| a l IH]; [reflexivity | simpl; rewrite IH; reflexivity]. }
  rewrite !Hf in H. lia.
Qed.

(** The lines after the balance repair, with the stack the scan leaves. *)
Lemma balance_repair_lines (code : str) :
  let stk := snd (fold_left scan_line (enumerate (split [nl] code)) ([], [])) in
  split [nl] (_validate_if_structure code)
  = fold_left close_if stk (split [nl] code).
Proof.
  intros stk. unfold _validate_if_structure.
  pose proof (scan_lines_fst (enumerate (split [nl] code)) ([], [])) as H.
  rewrite map_snd_enumerate in H. simpl in H.
  destruct (fold_left scan_line (enumerate (split [nl] code)) ([], []))
    as [fl stk'] eqn:E.
  subst stk. cbn [fst snd] in *. subst fl.
  apply split_join.
  - pose proof (split_not_nil code) as Hne.
    destruct (split [nl] code) as [| l ls]; [congruence |].
    intros Hnil.
    pose proof (close_all_keeps stk' (l :: ls) l (or_introl eq_refl)) as Hin.
    rewrite Hnil in Hin. destruct Hin.
  - apply Forall_forall. intros y Hy.
    apply close_all_inv in Hy. destruct Hy as [-> | Hy].
    + exact no_nl_endif.
    + pose proof (split_no_nl code) as Hall.
      rewrite Forall_forall in Hall. apply Hall. exact Hy.
Qed.

Lemma balance_repair_counts (code : str) :
  exists k,
    length (split [nl] (_validate_if_structure code))
    = length (split [nl] code) + k
    /\ if_endif_counts (_validate_if_structure code)
       = (fst (if_endif_counts code), snd (if_endif_counts code) + k)
    /\ fst (if_endif_counts code) <= snd (if_endif_counts code) + k.
Proof.
  pose proof (balance_repair_lines code) as Hl. cbv zeta in Hl.
  pose proof (scan_lines_snd (enumerate (split [nl] code)) ([], [])) as Hs.
  rewrite map_snd_enumerate in Hs. cbn [snd length] in Hs.
  set (stk := snd (fold_left scan_line (enumerate (split [nl] code))
                     ([], []))) in *.
  exists (length stk). unfold if_endif_counts.
  rewrite Hl, !counts_filter, close_all_length, !close_all_filter.
  cbn [fst snd].
  change (opens_if (lit "endif")) with false.
  change (closes_if (lit "endif")) with true.
  cbn [negb andb].
  repeat (apply conj); [reflexivity | f_equal; lia | lia].
Qed.

(** X2: the balance repair changes no line and removes none; it only
    inserts [endif] lines.  Every line of the input is a line of the
    result, every line of the result is a line of the input or [endif],
    the number of [if] lines is the same, and the result has as many more
    lines as it has more [endif] lines. *)
Theorem balance_repair_only_adds_endif (code : str) :
  (forall l, In l (split [nl] code) ->
             In l (split [nl] (_validate_if_structure code)))
  /\ (forall l, In l (split [nl] (_validate_if_structure code)) ->
                l = lit "endif" \/ In l (split [nl] code))
  /\ exists k,
       length (split [nl] (_validate_if_structure code))
       = length (split [nl] code) + k
       /\ if_endif_counts (_validate_if_structure code)
          = (fst (if_endif_counts code), snd (if_endif_counts code) + k).
Proof.
  pose proof (balance_repair_lines code) as Hl. cbv zeta in Hl.
  repeat (apply conj).
  - intros l H. rewrite Hl. apply close_all_keeps. exact H.
  - intros l H. rewrite Hl in H. apply close_all_inv in H. exact H.
  - destruct (balance_repair_counts code) as (k & H1 & H2 & _).
    exists k. split; assumption.
Qed.

(** X3: after the balance repair no conditional is left open by count:
    the text has at least as many [endif] lines as [if] lines, so the
    validation can then only report a surplus of [endif]. *)
Theorem balance_repair_closes_every_if (code : str) :
  fst (if_endif_counts (_validate_if_structure code))
  <= snd (if_endif_counts (_validate_if_structure code)).
Proof.
  destruct (balance_repair_counts code) as (k & _ & H2 & H3).
  rewrite H2. exact H3.
Qed.

(** *** What the repair guarantees for every text *)

Lemma no_errors_valid (t : str) :
  snd (validate_plantuml_syntax t) = [] ->
  fst (validate_plantuml_syntax t) = true.
Proof.
  unfold validate_plantuml_syntax.
  destruct (is_empty t); [discriminate |].
  destruct (fold_left count_line (split [nl] t) (0, 0)) as [i e].
  cbn [fst snd]. intros ->. reflexivity.
Qed.

(** X4: whatever the input, the text the repair returns has no misspelt
    theme directive and no line that starts with a colon before one of
    the five keywords; a validation of the result never reports these two
    kinds of error. *)
Theorem auto_fix_clears_typo_and_colons (t : str) :
  contains (lit "!thme") (fst (auto_fix_plantuml t)) = false
  /\ (forall line kw,
         In line (split [nl] (fst (auto_fix_plantuml t))) ->
         In kw patterns_to_fix ->
         Re.match_colon kw line = None).
Proof.
  destruct (fst (validate_plantuml_syntax t)) eqn:Hv.
  - rewrite (auto_fix_valid t Hv). cbn [fst].
    apply valid_verdict_spec in Hv.
    destruct Hv as (_ & _ & _ & _ & _ & Hc & Ht). split; assumption.
  - split.
    + rewrite contains_lines;
        [| discriminate | intros Hn; vm_compute in Hn; intuition discriminate].
      apply existsb_none. intros l Hl.
      apply (auto_fix_settled t l Hv Hl).
    + intros line kw Hl Hkw.
      destruct (auto_fix_settled t line Hv Hl) as (_ & H & _).
      apply H. exact Hkw.
Qed.

(** X5: whatever the input, the text the repair returns has at least as
    many [endif] lines as [if] lines. *)
Theorem auto_fix_closes_every_if (t : str) :
  fst (if_endif_counts (fst (auto_fix_plantuml t)))
  <= snd (if_endif_counts (fst (auto_fix_plantuml t))).
Proof.
  destruct (fst (validate_plantuml_syntax t)) eqn:Hv.
  - rewrite (auto_fix_valid t Hv). cbn [fst].
    apply valid_verdict_spec in Hv.
    destruct Hv as (_ & _ & _ & He & _). rewrite He. apply Nat.le_refl.
  - rewrite (auto_fix_invalid t Hv). cbn [fst].
    destruct (balance_repair_counts (fst (then_fixed t)))
      as (k & _ & H2 & H3).
    rewrite H2. exact H3.
Qed.

(** X6: empty diagnostics mean a valid result: when the repair logs
    nothing, the text it returns passes validation.  (The text may still
    differ from the input, as the balance repair logs nothing.) *)
Theorem auto_fix_silent_is_valid (t : str) :
  snd (auto_fix_plantuml t) = [] ->
  fst (validate_plantuml_syntax (fst (auto_fix_plantuml t))) = true.
Proof.
  destruct (fst (validate_plantuml_syntax t)) eqn:Hv.
  - rewrite (auto_fix_valid t Hv). intros _. exact Hv.
  - rewrite (auto_fix_invalid t Hv). cbn [fst snd]. intros H.
    apply no_errors_valid.
    destruct (snd (validate_plantuml_syntax
                     (_validate_if_structure (fst (then_fixed t)))))
      as [| e es]; [reflexivity |].
    cbn [length Nat.eqb] in H. apply app_eq_nil in H.
    destruct H as [_ H]. discriminate.
Qed.

End WithUnicode.

#[local] Existing Instance latin_cyrillic.

(** A text whose only defect is an unclosed conditional: the repair logs
    nothing, inserts [endif], and the result is valid. *)
Lemma auto_fix_silent_witness :
  fst (validate_plantuml_syntax (fst (auto_fix_plantuml unclosed_marked)))
  = true.
Proof.
  apply (auto_fix_silent_is_valid unclosed_marked).
  vm_compute. reflexivity.
Defined.

End FixerProps.

(* ===================================================================== *)
(** ** More about the two translators *)
(* ===================================================================== *)

Module GeneratorProps.
Import Samples MoreSamples Fixer Generator PyFacts RepairFacts FixerProps.

Section WithUnicode.
Context {U : Unicode}.

(** *** Loops that may raise *)

Lemma for_each_app (S A : Type) (body : S -> A -> result S)
  (l1 l2 : list A) (st : S) :
  for_each body (l1 ++ l2) st
  = bind (for_each body l1 st) (for_each body l2).
Proof.
  revert st. induction l1 as [| a l1 IH]; intros st; [reflexivity |].
  simpl. destruct (body st a) as [st' | e]; [apply IH | reflexivity].
Qed.

Lemma for_each_invariant (S A : Type) (body : S -> A -> result S)
  (P : S -> Prop) (Q : A -> Prop) (l : list A) (st st' : S) :
  (forall s a s', Q a -> P s -> body s a = Ok s' -> P s') ->
  Forall Q l -> P st -> for_each body l st = Ok st' -> P st'.
Proof.
  intros Hstep. revert st. induction l as [| a l IH]; intros st Hl Hst H.
  - simpl in H. injection H as <-. exact Hst.
  - inversion Hl as [| ? ? Ha Hl']; subst. simpl in H.
    destruct (body st a) as [s1 |] eqn:E; [| discriminate].
    apply (IH s1 Hl' (Hstep _ _ _ Ha Hst E) H).
Qed.

Lemma for_each_total (S A : Type) (body : S -> A -> result S)
  (P : S -> Prop) (l : list A) (st : S) :
  (forall s a, P s -> exists s', body s a = Ok s' /\ P s') ->
  P st -> exists st', for_each body l st = Ok st' /\ P st'.
Proof.
  intros Hstep. revert st. induction l as [| a l IH]; intros st Hst.
  - exists st. split; [reflexivity | exact Hst].
  - simpl. destruct (Hstep st a Hst) as (s1 & E & H1). rewrite E.
    apply IH. exact H1.
Qed.

(** *** The unbound source identifier *)

Lemma bpmn_line_bound (st : bpmn_state) (raw : str) :
  source_id st <> None ->
  exists st', bpmn_line st raw = Ok st' /\ source_id st' <> None.
Proof.
  intros Hb. unfold bpmn_line.
  destruct (is_empty (strip raw) || startswith (lit "%%") (strip raw));
    [exists st; split; [reflexivity | exact Hb] |].
  destruct (contains (lit "-->") (strip raw));
    [| exists st; split; [reflexivity | exact Hb]].
  destruct (2 <=? length (split (lit "-->") (strip raw)));
    [| exists st; split; [reflexivity | exact Hb]].
  set (source_part := strip (nth 0 (split (lit "-->") (strip raw)) [])).
  set (tp := strip (nth 1 (split (lit "-->") (strip raw)) [])).
  destruct (take_label tp) as [label target_part].
  destruct (match_word source_part) as [sid |];
    destruct (match_word target_part) as [tid |]; cbn [fst snd].
  - eexists. split; [reflexivity | discriminate].
  - eexists. split; [reflexivity | discriminate].
  - destruct (source_id st) as [s |] eqn:E; [| congruence].
    eexists. split; [reflexivity | cbn; discriminate].
  - eexists. split; [reflexivity | cbn; exact Hb].
Qed.

Lemma uc_source_bound (st : usecase_state) (part : str) :
  uc_source_id st <> None -> uc_source_id (uc_source st part) <> None.
Proof.
  intros Hb. unfold uc_source.
  destruct (is_actor_form part).
  - destruct (match_actor part) as [[id text] |]; [discriminate | exact Hb].
  - destruct (is_usecase_form part); [| exact Hb].
    destruct (match_usecase part) as [[id text] |];
      [discriminate | exact Hb].
Qed.

Lemma uc_target_bound (st : usecase_state) (part ct label : str) :
  uc_source_id st <> None ->
  exists st', uc_target st part ct label = Ok st'
              /\ uc_source_id st' <> None.
Proof.
  intros Hb. unfold uc_target, uc_append.
  destruct (uc_source_id st) as [s |] eqn:E; [| congruence].
  destruct (is_actor_form part).
  - destruct (match_actor part) as [[id text] |]; cbn [uc_source_id].
    + eexists. split; [reflexivity | discriminate].
    + exists st. split; [reflexivity | rewrite E; discriminate].
  - destruct (is_usecase_form part).
    + destruct (match_usecase part) as [[id text] |]; cbn [uc_source_id].
      * eexists. split; [reflexivity | discriminate].
      * exists st. split; [reflexivity | rewrite E; discriminate].
    + exists st. split; [reflexivity | rewrite E; discriminate].
Qed.

Lemma usecase_line_bound (st : usecase_state) (raw : str) :
  uc_source_id st <> None ->
  exists st', usecase_line st raw = Ok st' /\ uc_source_id st' <> None.
Proof.
  intros Hb. unfold usecase_line.
  destruct (is_empty (strip raw) || startswith (lit "%%") (strip raw));
    [exists st; split; [reflexivity | exact Hb] |].
  destruct (contains (lit "-->") (strip raw)
            || contains (lit "-.->") (strip raw));
    [| exists st; split; [reflexivity | exact Hb]].
  destruct (if contains (lit "-->") (strip raw)
            then (split (lit "-->") (strip raw), lit "-->")
            else (split (lit "-.->") (strip raw), lit ".->"))
    as [parts ct].
  destruct (2 <=? length parts);
    [| exists st; split; [reflexivity | exact Hb]].
  destruct (take_label (strip (nth 1 parts []))) as [label target_part].
  apply uc_target_bound. apply uc_source_bound. exact Hb.
Qed.

(** X7: both translators can raise only while no source identifier has
    been read.  If the lines of the notation split into a first part that
    parses and leaves the source identifier bound, the whole notation
    parses, whatever the lines that follow. *)
Theorem parse_raises_only_unbound (code : str) (pre post : list str) :
  notation_lines code = pre ++ post ->
  (forall st,
      for_each bpmn_line pre
        {| nodes := []; connections := []; source_id := None |} = Ok st ->
      source_id st <> None ->
      exists st', bpmn_parse code = Ok st')
  /\ (forall st,
         for_each usecase_line pre
           {| actors := []; usecases := []; relations := [];
              uc_source_id := None |} = Ok st ->
         uc_source_id st <> None ->
         exists st', usecase_parse code = Ok st').
Proof.
  intros Hsplit. split; intros st Hpre Hb.
  - unfold bpmn_parse. rewrite Hsplit, for_each_app, Hpre. cbn [bind].
    destruct (for_each_total _ _ bpmn_line (fun s => source_id s <> None)
                post st bpmn_line_bound Hb) as (st' & H & _).
    exists st'. exact H.
  - unfold usecase_parse. rewrite Hsplit, for_each_app, Hpre. cbn [bind].
    destruct (for_each_total _ _ usecase_line
                (fun s => uc_source_id s <> None)
                post st usecase_line_bound Hb) as (st' & H & _).
    exists st'. exact H.
Qed.

(** *** Registries only grow *)

Lemma eqb_true (a b : str) : Py.eqb a b = true -> a = b.
Proof.
  unfold Py.eqb. destruct (list_eq_dec N.eq_dec a b); [auto | discriminate].
Qed.

Lemma mem_set_same (k v : str) (d : Dict.t str) :
  Dict.mem k (Dict.set k v d) = true.
Proof.
  unfold Dict.mem. induction d as [| [k1 v1] d IH]; simpl.
  - rewrite eqb_refl. reflexivity.
  - destruct (Py.eqb k1 k) eqn:E; simpl; rewrite E; [reflexivity | exact IH].
Qed.

Lemma mem_set_keep (k k' v : str) (d : Dict.t str) :
  Dict.mem k d = true -> Dict.mem k (Dict.set k' v d) = true.
Proof.
  unfold Dict.mem. induction d as [| [k1 v1] d IH]; simpl; [discriminate |].
  destruct (Py.eqb k1 k') eqn:E'; simpl;
    destruct (Py.eqb k1 k) eqn:E; auto.
Qed.

(** The registries and the relationship list of [st'] extend those of
    [st]. *)
Local Abbreviation extends st st' :=
  ((forall k, Dict.mem k (actors st) = true ->
              Dict.mem k (actors st') = true)
   /\ (forall k, Dict.mem k (usecases st) = true ->
                 Dict.mem k (usecases st') = true)
   /\ exists more, relations st' = relations st ++ more).

(** Every identifier in use has a declaration. *)
Local Abbreviation well_declared st :=
  ((forall s t c l, In (s, t, c, l) (relations st) ->
      declared_in (actors st) (usecases st) s = true
      /\ declared_in (actors st) (usecases st) t = true)
   /\ (forall s, uc_source_id st = Some s ->
                 declared_in (actors st) (usecases st) s = true)).

Lemma extends_refl (st : usecase_state) : extends st st.
Proof.
  repeat (apply conj); auto. exists []. rewrite app_nil_r. reflexivity.
Qed.

Lemma extends_trans (a b c : usecase_state) :
  extends a b -> extends b c -> extends a c.
Proof.
  intros (A1 & A2 & m1 & A3) (B1 & B2 & m2 & B3).
  repeat (apply conj); auto.
  exists (m1 ++ m2). rewrite B3, A3, app_assoc. reflexivity.
Qed.

Lemma declared_keep (a1 u1 a2 u2 : Dict.t str) (k : str) :
  (forall k, Dict.mem k a1 = true -> Dict.mem k a2 = true) ->
  (forall k, Dict.mem k u1 = true -> Dict.mem k u2 = true) ->
  declared_in a1 u1 k = true -> declared_in a2 u2 k = true.
Proof.
  unfold declared_in. intros Ha Hu H. apply orb_true_iff in H.
  apply orb_true_iff. destruct H as [H | H]; [left | right]; auto.
Qed.

Lemma set_actor_extends (st : usecase_state) (id text : str)
  (src : option str) :
  extends st {| actors := Dict.set id text (actors st);
                usecases := usecases st; relations := relations st;
                uc_source_id := src |}.
Proof.
  cbn [actors usecases relations]. repeat (apply conj); auto.
  - intros k. apply mem_set_keep.
  - exists []. rewrite app_nil_r. reflexivity.
Qed.

Lemma set_usecase_extends (st : usecase_state) (id text : str)
  (src : option str) :
  extends st {| actors := actors st;
                usecases := Dict.set id text (usecases st);
                relations := relations st; uc_source_id := src |}.
Proof.
  cbn [actors usecases relations]. repeat (apply conj); auto.
  - intros k. apply mem_set_keep.
  - exists []. rewrite app_nil_r. reflexivity.
Qed.

Lemma uc_source_extends (st : usecase_state) (part : str) :
  extends st (uc_source st part).
Proof.
  unfold uc_source. destruct (is_actor_form part).
  - destruct (match_actor part) as [[id text] |];
      [apply set_actor_extends | apply extends_refl].
  - destruct (is_usecase_form part); [| apply extends_refl].
    destruct (match_usecase part) as [[id text] |];
      [apply set_usecase_extends | apply extends_refl].
Qed.

Lemma uc_append_extends (st st' : usecase_state) (id ct label : str) :
  uc_append st id ct label = Ok st' -> extends st st'.
Proof.
  unfold uc_append. destruct (uc_source_id st); [| discriminate].
  intros H. injection H as <-. cbn [actors usecases relations].
  repeat (apply conj); auto. eexists. reflexivity.
Qed.

Lemma uc_target_extends (st st' : usecase_state) (part ct label : str) :
  uc_target st part ct label = Ok st' -> extends st st'.
Proof.
  unfold uc_target.
  assert (Hstay : Ok st = Ok st' -> extends st st')
    by (intros H; injection H as <-; apply extends_refl).
  destruct (is_actor_form part).
  - destruct (match_actor part) as [[id text] |]; [| exact Hstay].
    intros H. apply uc_append_extends in H.
    eapply extends_trans; [apply set_actor_extends | exact H].
  - destruct (is_usecase_form part); [| exact Hstay].
    destruct (match_usecase part) as [[id text] |]; [| exact Hstay].
    intros H. apply uc_append_extends in H.
    eapply extends_trans; [apply set_usecase_extends | exact H].
Qed.

(** One line of notation, taken apart as the loop body does. *)
Lemma usecase_line_cases (st st' : usecase_state) (raw : str) :
  usecase_line st raw = Ok st' ->
  st' = st
  \/ exists source_part target_part ct label,
       uc_target (uc_source st source_part) target_part ct label = Ok st'.
Proof.
  unfold usecase_line.
  assert (Hstay : Ok st = Ok st' ->
                  st' = st
                  \/ exists source_part target_part ct label,
                       uc_target (uc_source st source_part) target_part ct
                         label = Ok st')
    by (intros H; injection H as <-; left; reflexivity).
  destruct (is_empty (strip raw) || startswith (lit "%%") (strip raw));
    [exact Hstay |].
  destruct (contains (lit "-->") (strip raw)
            || contains (lit "-.->") (strip raw)); [| exact Hstay].
  destruct (if contains (lit "-->") (strip raw)
            then (split (lit "-->") (strip raw), lit "-->")
            else (split (lit "-.->") (strip raw), lit ".->"))
    as [parts ct].
  destruct (2 <=? length parts); [| exact Hstay].
  destruct (take_label (strip (nth 1 parts []))) as [label target_part].
  intros H. right. eexists _, _, _, _. exact H.
Qed.

Lemma usecase_line_extends (st st' : usecase_state) (raw : str) :
  usecase_line st raw = Ok st' -> extends st st'.
Proof.
  intros H. apply usecase_line_cases in H.
  destruct H as [-> | (sp & tp & ct & label & H)]; [apply extends_refl |].
  eapply extends_trans; [apply uc_source_extends |].
  apply (uc_target_extends _ _ _ _ _ H).
Qed.

Lemma usecase_lines_extends (lines : list str) (st st' : usecase_state) :
  for_each usecase_line lines st = Ok st' -> extends st st'.
Proof.
  revert st. induction lines as [| raw lines IH]; intros st H.
  - simpl in H. injection H as <-. apply extends_refl.
  - simpl in H. destruct (usecase_line st raw) as [s1 |] eqn:E;
      [| discriminate].
    eapply extends_trans; [apply (usecase_line_extends _ _ _ E) |].
    apply IH. exact H.
Qed.

(** Declarations are kept along an extension. *)
Lemma well_declared_keep (st st' : usecase_state) :
  extends st st' -> relations st' = relations st ->
  uc_source_id st' = uc_source_id st ->
  well_declared st -> well_declared st'.
Proof.
  intros (Ha & Hu & _) Hrel Hsrc [Hr Hs]. rewrite Hrel, Hsrc. split.
  - intros s t c l Hin. destruct (Hr s t c l Hin) as [H1 H2].
    split; eapply declared_keep; eauto.
  - intros s Hsome. eapply declared_keep; eauto.
Qed.

Lemma uc_source_declared (st : usecase_state) (part : str) :
  well_declared st -> well_declared (uc_source st part).
Proof.
  intros Hw. pose proof (uc_source_extends st part) as He.
  pose proof Hw as [Hr Hs]. destruct He as (Ha & Hu & _).
  assert (Hrel : relations (uc_source st part) = relations st).
  { unfold uc_source. destruct (is_actor_form part).
    - destruct (match_actor part) as [[id text] |]; reflexivity.
    - destruct (is_usecase_form part); [| reflexivity].
      destruct (match_usecase part) as [[id text] |]; reflexivity. }
  rewrite Hrel. split.
  - intros s t c l Hin. destruct (Hr s t c l Hin) as [H1 H2].
    split; eapply declared_keep; eauto.
  - unfold uc_source in *. destruct (is_actor_form part).
    + destruct (match_actor part) as [[id text] |].
      * intros s Hsome. injection Hsome as <-. unfold declared_in.
        cbn [actors]. rewrite mem_set_same. reflexivity.
      * exact Hs.
    + destruct (is_usecase_form part); [| exact Hs].
      destruct (match_usecase part) as [[id text] |].
      * intros s Hsome. injection Hsome as <-. unfold declared_in.
        cbn [usecases]. rewrite mem_set_same. apply orb_true_r.
      * exact Hs.
Qed.

Lemma uc_append_declared (st st' : usecase_state) (id ct label : str) :
  well_declared st ->
  declared_in (actors st) (usecases st) id = true ->
  uc_append st id ct label = Ok st' ->
  well_declared st'.
Proof.
  intros [Hr Hs] Hid. unfold uc_append.
  destruct (uc_source_id st) as [sid |] eqn:E; [| discriminate].
  intros H. injection H as <-.
  cbn [actors usecases relations uc_source_id]. split.
  - intros s t c l Hin. apply in_app_or in Hin.
    destruct Hin as [Hin | [Heq | []]]; [apply (Hr s t c l Hin) |].
    injection Heq as <- <- _ _. split; [apply Hs; reflexivity | exact Hid].
  - exact Hs.
Qed.

Lemma uc_target_declared (st st' : usecase_state) (part ct label : str) :
  well_declared st ->
  uc_target st part ct label = Ok st' ->
  well_declared st'.
Proof.
  intros Hw. unfold uc_target.
  assert (Hstay : Ok st = Ok st' -> well_declared st')
    by (intros H; injection H as <-; exact Hw).
  destruct (is_actor_form part).
  - destruct (match_actor part) as [[id text] |]; [| exact Hstay].
    apply uc_append_declared.
    + apply (well_declared_keep st); auto. apply set_actor_extends.
    + unfold declared_in. cbn [actors]. rewrite mem_set_same. reflexivity.
  - destruct (is_usecase_form part); [| exact Hstay].
    destruct (match_usecase part) as [[id text] |]; [| exact Hstay].
    apply uc_append_declared.
    + apply (well_declared_keep st); auto. apply set_usecase_extends.
    + unfold declared_in. cbn [usecases]. rewrite mem_set_same.
      apply orb_true_r.
Qed.

Lemma usecase_line_declared (st st' : usecase_state) (raw : str) :
  well_declared st -> usecase_line st raw = Ok st' -> well_declared st'.
Proof.
  intros Hw H. apply usecase_line_cases in H.
  destruct H as [-> | (sp & tp & ct & label & H)]; [exact Hw |].
  apply (uc_target_declared _ _ _ _ _ (uc_source_declared st sp Hw) H).
Qed.

(** X8: every relationship the actor-interaction translator emits joins
    declared identifiers: when the notation parses, the source and the
    target of each relationship are keys of the actor registry or of the
    use-case registry, so each has a declaration line in the diagram. *)
Theorem relationships_join_declared (code : str) (st : usecase_state)
  (s t c l : str) :
  usecase_parse code = Ok st ->
  In (s, t, c, l) (relations st) ->
  declared_in (actors st) (usecases st) s = true
  /\ declared_in (actors st) (usecases st) t = true.
Proof.
  intros Hp Hin. unfold usecase_parse in Hp.
  assert (Hw : well_declared st).
  { apply (for_each_invariant _ _ usecase_line
             (fun s => well_declared s) (fun _ => True)
             (notation_lines code)
             {| actors := []; usecases := []; relations := [];
                uc_source_id := None |} st).
    - intros s0 a s' _ H0 E. apply (usecase_line_declared _ _ _ H0 E).
    - apply Forall_forall. intros; exact I.
    - cbn [relations uc_source_id]. split; [intros ? ? ? ? [] | discriminate].
    - exact Hp. }
  destruct Hw as [Hr _]. apply (Hr s t c l Hin).
Qed.

(** X9: registrations are permanent.  Whatever lines follow, an
    identifier of the actor registry stays in the actor registry and an
    identifier of the use-case registry stays in the use-case registry (so
    an identifier met in both forms is declared twice), and the
    relationships read so far stay, in order, at the front of the list. *)
Theorem registrations_are_permanent (lines : list str)
  (st st' : usecase_state) :
  for_each usecase_line lines st = Ok st' ->
  (forall k, Dict.mem k (actors st) = true ->
             Dict.mem k (actors st') = true)
  /\ (forall k, Dict.mem k (usecases st) = true ->
                Dict.mem k (usecases st') = true)
  /\ exists more, relations st' = relations st ++ more.
Proof.
  intros Hp. exact (usecase_lines_extends lines st st' Hp).
Qed.

(** *** The pieces of a line are made of its characters *)

Local Abbreviation within a b := (forall x : char, In x a -> In x b).

Lemma no_nl_within (a b : str) : within a b -> no_nl b -> no_nl a.
Proof. unfold no_nl. intros H Hb Ha. apply Hb, H, Ha. Qed.

Lemma lstrip_within (s : str) : within (lstrip s) s.
Proof.
  destruct (lstrip_decomp s) as (ws & _ & Hs). intros x Hx.
  rewrite Hs. apply in_or_app. right. exact Hx.
Qed.

Lemma strip_within (s : str) : within (strip s) s.
Proof.
  intros x Hx. apply lstrip_within. apply rstrip_incl. exact Hx.
Qed.

Lemma span_within (p : char -> bool) (s : str) :
  within (fst (span p s)) s /\ within (snd (span p s)) s.
Proof.
  pose proof (span_decomp p s) as H.
  split; intros x Hx; rewrite H; apply in_or_app; [left | right]; exact Hx.
Qed.

Lemma split_go_within (sep : str) (s : str) (k : nat) (piece : str) :
  In piece (split_go sep k s) -> within piece s.
Proof.
  revert k piece. induction s as [| c s IH]; intros k piece H.
  - simpl in H. destruct H as [<- | []]. intros x [].
  - cbn [split_go] in H. destruct k as [| k].
    + destruct (startswith sep (c :: s)).
      * destruct H as [<- | H]; [intros x [] |].
        intros x Hx. right. apply (IH _ _ H x Hx).
      * destruct (split_go sep 0 s) as [| p0 ps] eqn:E.
        -- destruct H as [<- | []]. intros x [<- | []]. left. reflexivity.
        -- destruct H as [<- | H].
           ++ intros x [<- | Hx]; [left; reflexivity |].
              right. apply (IH 0 p0); [rewrite E; left; reflexivity | exact Hx].
           ++ intros x Hx. right.
              apply (IH 0 piece); [rewrite E; right; exact H | exact Hx].
    + intros x Hx. right. apply (IH _ _ H x Hx).
Qed.

Lemma nth_part_within (sep s : str) (n : nat) :
  within (nth n (split sep s) []) s.
Proof.
  destruct (nth_in_or_default n (split sep s) []) as [H | ->].
  - apply (split_go_within sep s 0 _ H).
  - intros x [].
Qed.

Lemma search_delim_within (o c : char) (s body : str) :
  search_delim o c s = Some body -> within body s.
Proof.
  induction s as [| a s IH]; [discriminate |].
  cbn [search_delim].
  assert (Hrec : search_delim o c s = Some body -> within body (a :: s))
    by (intros H x Hx; right; apply (IH H x Hx)).
  destruct (a =? o)%N; [| exact Hrec].
  pose proof (span_within (neq c) s) as [Hf _].
  destruct (span (neq c) s) as [b r]. cbn [fst] in Hf.
  destruct (negb (is_empty b) && startswith [c] r); [| exact Hrec].
  intros H. injection H as <-. intros x Hx. right. apply Hf. exact Hx.
Qed.

Lemma sub_delim_go_within (c : char) (s : str) (k : nat) :
  within (sub_delim_go c k s) s.
Proof.
  revert k. induction s as [| a s IH]; intros k x Hx; [exact Hx |].
  cbn [sub_delim_go] in Hx. destruct k as [| k].
  - assert (Hkeep : In x (a :: sub_delim_go c 0 s) -> In x (a :: s)).
    { intros [<- | H]; [left; reflexivity | right; apply (IH 0 x H)]. }
    destruct (a =? c)%N; [| exact (Hkeep Hx)].
    destruct (span (neq c) s) as [b r].
    destruct (negb (is_empty b) && startswith [c] r); [| exact (Hkeep Hx)].
    right. apply (IH _ x Hx).
  - right. apply (IH _ x Hx).
Qed.

Lemma take_label_within (target_part label rest : str) :
  take_label target_part = (label, rest) ->
  within label target_part /\ within rest target_part.
Proof.
  unfold take_label.
  destruct (search_delim bar bar target_part) as [b |] eqn:E.
  - intros H. injection H as <- <-. split.
    + apply (search_delim_within _ _ _ _ E).
    + intros x Hx. apply strip_within in Hx.
      apply (sub_delim_go_within bar target_part 0 x Hx).
  - intros H. injection H as <- <-. split; [intros x [] | auto].
Qed.

Lemma node_text_within (part text : str) :
  node_text part = Some text -> within text part.
Proof.
  unfold node_text.
  destruct (search_delim 91%N 93%N part) as [b |] eqn:E.
  - intros H. injection H as <-. apply (search_delim_within _ _ _ _ E).
  - apply search_delim_within.
Qed.

(** *** No text of the graph holds a line break *)

Local Abbreviation clean_graph st :=
  ((forall k v, In (k, v) (nodes st) -> no_nl v)
   /\ (forall s t l, In (s, t, l) (connections st) -> no_nl l)).

Lemma set_in (k0 v0 k v : str) (d : Dict.t str) :
  In (k, v) (Dict.set k0 v0 d) -> v = v0 \/ In (k, v) d.
Proof.
  induction d as [| [k1 v1] d IH]; simpl.
  - intros [H | []]. injection H as _ <-. left. reflexivity.
  - destruct (Py.eqb k1 k0); simpl.
    + intros [H | H]; [injection H as _ <-; left; reflexivity
                      | right; right; exact H].
    + intros [H | H]; [right; left; exact H |].
      destruct (IH H); [left | right; right]; assumption.
Qed.

Lemma get_in (k v : str) (d : Dict.t str) :
  Dict.get k d = Some v -> exists k', In (k', v) d.
Proof.
  induction d as [| [k1 v1] d IH]; simpl; [discriminate |].
  destruct (Py.eqb k1 k).
  - intros H. injection H as <-. exists k1. left. reflexivity.
  - intros H. destruct (IH H) as [k' Hk]. exists k'. right. exact Hk.
Qed.

Lemma register_clean (id part : str) (nodes : Dict.t str) :
  no_nl part ->
  (forall k v, In (k, v) nodes -> no_nl v) ->
  forall k v, In (k, v) (register id part nodes) -> no_nl v.
Proof.
  intros Hp Hn k v. unfold register.
  destruct (node_text part) as [t |] eqn:E; [| apply Hn].
  intros H. apply set_in in H. destruct H as [-> | H]; [| apply (Hn k v H)].
  apply (no_nl_within _ part); [apply (node_text_within _ _ E) | exact Hp].
Qed.

Lemma bpmn_line_clean (st : bpmn_state) (raw : str) (st' : bpmn_state) :
  no_nl raw -> clean_graph st -> bpmn_line st raw = Ok st' ->
  clean_graph st'.
Proof.
  intros Hraw Hc. unfold bpmn_line.
  assert (Hstay : Ok st = Ok st' -> clean_graph st')
    by (intros H; injection H as <-; exact Hc).
  destruct (is_empty (strip raw) || startswith (lit "%%") (strip raw));
    [exact Hstay |].
  destruct (contains (lit "-->") (strip raw)); [| exact Hstay].
  destruct (2 <=? length (split (lit "-->") (strip raw))); [| exact Hstay].
  assert (Hline : no_nl (strip raw))
    by (apply (no_nl_within _ raw); [apply strip_within | exact Hraw]).
  set (source_part := strip (nth 0 (split (lit "-->") (strip raw)) [])).
  set (tp := strip (nth 1 (split (lit "-->") (strip raw)) [])).
  assert (Hsp : no_nl source_part).
  { apply (no_nl_within _ (strip raw)); [| exact Hline].
    intros x Hx. apply strip_within in Hx.
    apply (nth_part_within _ _ _ x Hx). }
  assert (Htp : no_nl tp).
  { apply (no_nl_within _ (strip raw)); [| exact Hline].
    intros x Hx. apply strip_within in Hx.
    apply (nth_part_within _ _ _ x Hx). }
  destruct (take_label tp) as [label target_part] eqn:El.
  destruct (take_label_within _ _ _ El) as [Hl1 Hl2].
  assert (Hlabel : no_nl label) by (apply (no_nl_within _ tp); assumption).
  assert (Htarget : no_nl target_part)
    by (apply (no_nl_within _ tp); assumption).
  destruct Hc as [Hn He].
  destruct (match_word source_part) as [sid |];
    destruct (match_word target_part) as [tid |].
  - intros H. injection H as <-. cbn [nodes connections]. split.
    + apply register_clean; [exact Htarget |].
      apply register_clean; assumption.
    + intros s t l Hin. apply in_app_or in Hin.
      destruct Hin as [Hin | [Heq | []]]; [apply (He s t l Hin) |].
      injection Heq as _ _ <-. exact Hlabel.
  - intros H. injection H as <-. cbn [nodes connections]. split.
    + apply register_clean; assumption.
    + exact He.
  - destruct (source_id st) as [sid0 |]; [| discriminate].
    intros H. injection H as <-. cbn [nodes connections]. split.
    + apply register_clean; assumption.
    + intros s0 t0 l0 Hin. apply in_app_or in Hin.
      destruct Hin as [Hin | [Heq | []]]; [apply (He s0 t0 l0 Hin) |].
      injection Heq as _ _ <-. exact Hlabel.
  - intros H. injection H as <-. cbn [nodes connections].
    split; assumption.
Qed.

Lemma notation_lines_no_nl (code : str) : Forall no_nl (notation_lines code).
Proof.
  unfold notation_lines. pose proof (split_no_nl (strip code)) as H.
  destruct (split [nl] (strip code)) as [| l0 rest]; [exact H |].
  destruct (startswith (lit "flowchart") (strip l0)); [| exact H].
  inversion H; assumption.
Qed.

Lemma bpmn_parse_clean (code : str) (st : bpmn_state) :
  bpmn_parse code = Ok st -> clean_graph st.
Proof.
  intros Hp.
  apply (for_each_invariant _ _ bpmn_line
           (fun s => clean_graph s) no_nl (notation_lines code)
           {| nodes := []; connections := []; source_id := None |} st).
  - intros s a s' Ha Hs E. apply (bpmn_line_clean s a s' Ha Hs E).
  - apply notation_lines_no_nl.
  - cbn [nodes connections]. split; [intros ? ? [] | intros ? ? ? []].
  - exact Hp.
Qed.

(** *** The lines of a process-flow diagram *)

Ltac lit_no_nl := intros Hnl; vm_compute in Hnl; intuition discriminate.

Lemma no_nl_check (l : str) :
  existsb (N.eqb nl) l = false -> no_nl l.
Proof.
  intros H Hin. assert (E : existsb (N.eqb nl) l = true).
  { apply existsb_exists. exists nl. split; [exact Hin | apply N.eqb_refl]. }
  congruence.
Qed.

Lemma no_nl_check_all (ls : list str) :
  forallb (fun l => negb (existsb (N.eqb nl) l)) ls = true ->
  Forall no_nl ls.
Proof.
  intros H. apply Forall_forall. intros l Hl.
  rewrite forallb_forall in H. specialize (H l Hl).
  apply no_nl_check. destruct (existsb (N.eqb nl) l); [discriminate | auto].
Qed.

Lemma transition_no_nl (label target_text : str) :
  no_nl label -> no_nl target_text ->
  no_nl (transition label target_text).
Proof.
  intros Hl Ht. unfold transition. destruct (is_empty label);
    repeat (apply no_nl_app); try assumption; lit_no_nl.
Qed.

Lemma edge_lines_no_nl (nodes : Dict.t str) (s t l : str) :
  (forall k v, In (k, v) nodes -> no_nl v) -> no_nl l ->
  Forall no_nl (edge_lines nodes (s, t, l)).
Proof.
  intros Hn Hl. unfold edge_lines.
  destruct (Dict.get s nodes) as [st |] eqn:Es; [| constructor].
  destruct (Dict.get t nodes) as [tt |] eqn:Et; [| constructor].
  destruct (get_in _ _ _ Es) as [ks Hks].
  destruct (get_in _ _ _ Et) as [kt Hkt].
  pose proof (Hn _ _ Hks) as Hst. pose proof (Hn _ _ Hkt) as Htt.
  destruct (is_condition st); repeat constructor;
    repeat (apply no_nl_app);
    try assumption; try (apply transition_no_nl; assumption); lit_no_nl.
Qed.

Lemma bpmn_emit_no_nl (nodes : Dict.t str) (conns : list edge) :
  (forall k v, In (k, v) nodes -> no_nl v) ->
  (forall s t l, In (s, t, l) conns -> no_nl l) ->
  Forall no_nl (bpmn_emit nodes conns).
Proof.
  intros Hn He. unfold bpmn_emit.
  repeat (apply Forall_app; split).
  - apply no_nl_check_all. vm_compute. reflexivity.
  - constructor; [lit_no_nl | constructor].
  - unfold bpmn_body. destruct nodes as [| [k0 v0] rest]; [constructor |].
    constructor.
    + repeat (apply no_nl_app);
        try (apply (Hn k0 v0); left; reflexivity); lit_no_nl.
    + apply Forall_forall. intros y Hy. apply in_flat_map in Hy.
      destruct Hy as ([[s t] l] & Hin & Hy).
      pose proof (edge_lines_no_nl ((k0, v0) :: rest) s t l Hn
                    (He s t l Hin)) as Hall.
      rewrite Forall_forall in Hall. apply Hall. exact Hy.
  - apply no_nl_check_all. vm_compute. reflexivity.
Qed.

Lemma strip_head (c : char) (r : str) :
  is_space c = false -> exists r', strip (c :: r) = c :: r'.
Proof.
  intros Hc. unfold strip. cbn [lstrip]. rewrite Hc.
  apply rstrip_cons. exact Hc.
Qed.

Lemma line_head_plain (c : char) (r : str) :
  is_space c = false -> c <> 105%N -> c <> 101%N ->
  opens_if (c :: r) = false /\ closes_if (c :: r) = false.
Proof.
  intros Hc Hi He. unfold opens_if, closes_if.
  destruct (strip_head c r Hc) as [r' ->].
  change (lit "if ") with (105%N :: [102; 32]%N).
  change (lit "endif") with (101%N :: [110; 100; 105; 102]%N).
  cbn [startswith].
  destruct (N.eqb_spec 105 c); [congruence |].
  destruct (N.eqb_spec 101 c); [congruence |]. split; reflexivity.
Qed.

Lemma transition_head (label target_text : str) :
  exists r, transition label target_text = 45%N :: r.
Proof.
  unfold transition. destruct (is_empty label); eexists; reflexivity.
Qed.

Lemma if_line_opens (source_text : str) :
  opens_if (lit "if " ++ dq ++ source_text ++ dq ++ lit " then") = true.
Proof.
  unfold opens_if, strip.
  change (lit "if " ++ dq ++ source_text ++ dq ++ lit " then")
    with (105%N :: ([102; 32]%N
                    ++ 34%N :: (source_text ++ dq ++ lit " then"))).
  cbn [lstrip]. change (is_space 105%N) with false. cbv iota.
  change (105%N :: ([102; 32]%N
                    ++ 34%N :: (source_text ++ dq ++ lit " then")))
    with (lit "if " ++ 34%N :: (source_text ++ dq ++ lit " then")).
  rewrite rstrip_app.
  - apply startswith_app.
  - destruct (rstrip_cons 34%N (source_text ++ dq ++ lit " then") eq_refl)
      as [r' Hr']. intros Hnil.
    pose proof (eq_trans (eq_sym Hr') Hnil) as E. discriminate E.
Qed.

Lemma edge_lines_counts (nodes : Dict.t str) (e : edge) :
  length (filter opens_if (edge_lines nodes e))
  = (if is_decision_edge nodes e then 1 else 0)
  /\ filter (fun l => negb (opens_if l) && closes_if l) (edge_lines nodes e)
     = [].
Proof.
  destruct e as [[s t] l]. unfold edge_lines, is_decision_edge.
  destruct (Dict.get s nodes) as [st |]; [| split; reflexivity].
  destruct (Dict.get t nodes) as [tt |]; [| split; reflexivity].
  destruct (transition_head l tt) as [r Hr].
  assert (Hplain : opens_if (transition l tt) = false
                   /\ closes_if (transition l tt) = false).
  { rewrite Hr. apply line_head_plain; [reflexivity | |]; discriminate. }
  assert (Hind : opens_if (lit "  " ++ transition l tt) = false
                 /\ closes_if (lit "  " ++ transition l tt) = false).
  { unfold opens_if, closes_if, strip. rewrite Hr.
    change (lstrip (lit "  " ++ 45%N :: r)) with (lstrip (45%N :: r)).
    apply (line_head_plain 45%N r); [reflexivity | |]; discriminate. }
  destruct Hplain as [P1 P2]. destruct Hind as [I1 I2].
  destruct (is_condition st); cbn [filter].
  - rewrite if_line_opens, I1, I2. cbn [negb andb]. split; reflexivity.
  - rewrite P1, P2. cbn [negb andb]. split; reflexivity.
Qed.

Lemma edges_counts (nodes : Dict.t str) (conns : list edge) :
  length (filter opens_if (flat_map (edge_lines nodes) conns))
  = length (filter (is_decision_edge nodes) conns)
  /\ filter (fun l => negb (opens_if l) && closes_if l)
       (flat_map (edge_lines nodes) conns) = [].
Proof.
  induction conns as [| e conns [IH1 IH2]]; [split; reflexivity |].
  cbn [flat_map filter]. rewrite !filter_app, length_app.
  destruct (edge_lines_counts nodes e) as [H1 H2].
  rewrite H1, H2, IH1, IH2.
  destruct (is_decision_edge nodes e); split; reflexivity.
Qed.

Lemma no_decision_without_nodes (conns : list edge) :
  filter (is_decision_edge []) conns = [].
Proof.
  induction conns as [| [[s t] l] conns IH]; [reflexivity | exact IH].
Qed.

Lemma bpmn_emit_counts (nodes : Dict.t str) (conns : list edge) :
  length (filter opens_if (bpmn_emit nodes conns))
  = length (filter (is_decision_edge nodes) conns)
  /\ length (filter (fun l => negb (opens_if l) && closes_if l)
               (bpmn_emit nodes conns)) = 0.
Proof.
  unfold bpmn_emit. rewrite !filter_app, !length_app.
  change (filter opens_if bpmn_header) with (@nil str).
  change (filter opens_if [lit "|"]) with (@nil str).
  change (filter opens_if bpmn_footer) with (@nil str).
  change (filter (fun l => negb (opens_if l) && closes_if l) bpmn_header)
    with (@nil str).
  change (filter (fun l => negb (opens_if l) && closes_if l) [lit "|"])
    with (@nil str).
  change (filter (fun l => negb (opens_if l) && closes_if l) bpmn_footer)
    with (@nil str).
  cbn [length]. rewrite !Nat.add_0_r.
  unfold bpmn_body. destruct nodes as [| [k0 v0] rest].
  - rewrite no_decision_without_nodes. split; reflexivity.
  - destruct (edges_counts ((k0, v0) :: rest) conns) as [H1 H2].
    assert (Hstart :
      opens_if (pseudo_state ++ lit " --> " ++ dq ++ v0 ++ dq) = false
      /\ closes_if (pseudo_state ++ lit " --> " ++ dq ++ v0 ++ dq) = false).
    { apply (line_head_plain 40%N); [reflexivity | |]; discriminate. }
    destruct Hstart as [S1 S2].
    cbn [filter]. rewrite S1, S2. cbn [negb andb]. rewrite H1, H2.
    split; reflexivity.
Qed.

Lemma bpmn_emit_not_nil (nodes : Dict.t str) (conns : list edge) :
  bpmn_emit nodes conns <> [].
Proof. unfold bpmn_emit. discriminate. Qed.

(** X10: the process-flow translator never closes a conditional it opens.
    When the notation parses, the lines of the diagram are the emitted
    lines, none of them is an [endif] line, and the [if] lines are as many
    as the edges emitted as conditional blocks; so a diagram with such an
    edge never passes validation. *)
Theorem conditionals_never_closed
  (processData : Dict.t str) (code : str) (st : bpmn_state) :
  Dict.get bpmn_key processData = Some code ->
  bpmn_parse code = Ok st ->
  exists out,
    generateBPMNDiagram processData = Ok out
    /\ split [nl] out = bpmn_emit (nodes st) (connections st)
    /\ if_endif_counts out
       = (length (filter (is_decision_edge (nodes st)) (connections st)), 0)
    /\ (fst (validate_plantuml_syntax out) = true ->
        filter (is_decision_edge (nodes st)) (connections st) = []).
Proof.
  intros Hget Hparse. eexists. split.
  { apply (FlowFacts.generate_parsed _ _ _ Hget Hparse). }
  destruct (bpmn_parse_clean code st Hparse) as [Hn He].
  pose proof (bpmn_emit_no_nl _ _ Hn He) as Hall.
  pose proof (bpmn_emit_not_nil (nodes st) (connections st)) as Hne.
  destruct (bpmn_emit_counts (nodes st) (connections st)) as [C1 C2].
  assert (Hcounts :
    if_endif_counts (join [nl] (bpmn_emit (nodes st) (connections st)))
    = (length (filter (is_decision_edge (nodes st)) (connections st)), 0)).
  { rewrite (counts_of_lines _ Hne Hall), C1, C2. reflexivity. }
  split; [apply (split_join _ Hne Hall) |].
  split; [exact Hcounts |].
  intros Hv. apply valid_verdict_spec in Hv.
  destruct Hv as (_ & _ & _ & Heq & _). rewrite Hcounts in Heq.
  cbn [fst snd] in Heq. apply length_zero_iff_nil. exact Heq.
Qed.

(** *** Both markers, always *)

Lemma ok_inj (A : Type) (a b : A) : Ok a = Ok b -> a = b.
Proof. intros H. injection H as H. exact H. Qed.

Lemma join_has_line (sub : str) (ls : list str) :
  In sub ls -> contains sub (join [nl] ls) = true.
Proof.
  intros H. destruct (join_piece ls sub H) as (a & b & ->).
  apply contains_intro.
Qed.

(** X11: whatever the dictionary, a diagram returned by either translator
    has the start marker and the end marker, the fallback skeletons
    included; a validation of it never reports a missing marker. *)
Theorem diagrams_have_both_markers (d : Dict.t str) (out : str) :
  generateBPMNDiagram d = Ok out \/ generateUseCaseDiagram d = Ok out ->
  contains (lit "@startuml") out = true
  /\ contains (lit "@enduml") out = true.
Proof.
  intros [H | H].
  - unfold generateBPMNDiagram in H.
    destruct (Dict.is_empty d || negb (Dict.mem (lit "bpmn_mermaid") d)).
    + apply ok_inj in H. subst out. split; vm_compute; reflexivity.
    + destruct (Dict.get (lit "bpmn_mermaid") d) as [code |].
      * destruct (bpmn_parse code) as [st |]; [| discriminate].
        cbn [bind] in H. apply ok_inj in H. subst out.
        split; apply join_has_line; unfold bpmn_emit.
        -- apply in_or_app. left. left. reflexivity.
        -- apply in_or_app. right. apply in_or_app. right.
           apply in_or_app. right. right. left. reflexivity.
      * apply ok_inj in H. subst out. split; vm_compute; reflexivity.
  - unfold generateUseCaseDiagram in H.
    destruct (Dict.is_empty d || negb (Dict.mem (lit "usecase_mermaid") d)).
    + apply ok_inj in H. subst out. split; vm_compute; reflexivity.
    + destruct (Dict.get (lit "usecase_mermaid") d) as [code |].
      * destruct (usecase_parse code) as [st |]; [| discriminate].
        cbn [bind] in H. apply ok_inj in H. subst out.
        split; apply join_has_line; unfold usecase_emit.
        -- apply in_or_app. left. left. reflexivity.
        -- repeat (apply in_or_app; right). left. reflexivity.
      * apply ok_inj in H. subst out. split; vm_compute; reflexivity.
Qed.

End WithUnicode.

#[local] Existing Instance latin_cyrillic.

(** After its first line the two-line notation has a source identifier,
    so the second line, which has none of its own, cannot raise. *)
Lemma parse_raises_only_unbound_witness :
  exists st', usecase_parse bare_source_second = Ok st'.
Proof.
  destruct (parse_raises_only_unbound bare_source_second
              [lit "A[User] --> B((Login))"] [lit "foo --> C((Pay))"])
    as [_ H].
  - vm_compute. reflexivity.
  - eapply H; [vm_compute; reflexivity | discriminate].
Defined.

Lemma relationships_join_declared_witness :
  declared_in [(lit "A", lit "User")] [(lit "B", lit "Login")] (lit "A")
  = true
  /\ declared_in [(lit "A", lit "User")] [(lit "B", lit "Login")] (lit "B")
     = true.
Proof.
  apply (relationships_join_declared user_login
           {| actors := [(lit "A", lit "User")];
              usecases := [(lit "B", lit "Login")];
              relations := [(lit "A", lit "B", lit "-->", [])];
              uc_source_id := Some (lit "A") |}
           (lit "A") (lit "B") (lit "-->") []).
  - vm_compute. reflexivity.
  - left. reflexivity.
Defined.

(** The identifier [A], first an actor, is then met as a use case: it
    stays in the actor registry. *)
Lemma registrations_are_permanent_witness :
  let st := {| actors := [(lit "A", lit "User")];
               usecases := [(lit "B", lit "Login")];
               relations := [(lit "A", lit "B", lit "-->", [])];
               uc_source_id := Some (lit "A") |} in
  let st' := {| actors := [(lit "A", lit "User")];
                usecases := [(lit "B", lit "Login"); (lit "A", lit "Pay")];
                relations := [(lit "A", lit "B", lit "-->", []);
                              (lit "A", lit "B", lit "-->", [])];
                uc_source_id := Some (lit "A") |} in
  (forall k, Dict.mem k (actors st) = true -> Dict.mem k (actors st') = true)
  /\ (forall k, Dict.mem k (usecases st) = true ->
                Dict.mem k (usecases st') = true)
  /\ exists more, relations st' = relations st ++ more.
Proof.
  intros st st'.
  apply (registrations_are_permanent [lit "A((Pay)) --> B((Login))"] st st').
  vm_compute. reflexivity.
Defined.

Lemma conditionals_never_closed_witness :
  let st := {| nodes := [(lit "A", lit "ok?"); (lit "B", lit "Done")];
               connections := [(lit "A", lit "B", lit "yes")];
               source_id := Some (lit "A") |} in
  exists out,
    generateBPMNDiagram [(bpmn_key, decision_edge)] = Ok out
    /\ split [nl] out = bpmn_emit (nodes st) (connections st)
    /\ if_endif_counts out
       = (length (filter (is_decision_edge (nodes st)) (connections st)), 0)
    /\ (fst (validate_plantuml_syntax out) = true ->
        filter (is_decision_edge (nodes st)) (connections st) = []).
Proof.
  intros st.
  apply (conditionals_never_closed [(bpmn_key, decision_edge)]
           decision_edge st).
  - reflexivity.
  - vm_compute. reflexivity.
Defined.

Lemma diagrams_have_both_markers_witness :
  contains (lit "@startuml") (join [nl] user_login_diagram) = true
  /\ contains (lit "@enduml") (join [nl] user_login_diagram) = true.
Proof.
  apply (diagrams_have_both_markers [(usecase_key, user_login)]
           (join [nl] user_login_diagram)).
  right. vm_compute. reflexivity.
Defined.

End GeneratorProps.

(* ===================================================================== *)
(** ** The ungated repair, fix_plantuml_syntax *)
(* ===================================================================== *)

Module SyntaxFixProps.
Import Samples MoreSamples Fixer PyFacts RepairFacts FixerProps.

Section WithUnicode.
Context {U : Unicode}.

(** *** Trailing white space *)

Lemma rstrip_decomp (l : str) :
  exists w, all_space w /\ l = rstrip l ++ w.
Proof.
  induction l as [| c l (w & Hw & IH)].
  - exists []. split; [intros x [] | reflexivity].
  - simpl. destruct (rstrip l) as [| r0 r] eqn:E.
    + destruct (is_space c) eqn:Ec.
      * exists (c :: l). split; [| reflexivity].
        simpl in IH. subst w. intros x [<- | Hx]; [exact Ec | apply Hw, Hx].
      * exists l. split; [| reflexivity].
        simpl in IH. subst w. exact Hw.
    + exists w. split; [exact Hw |]. simpl. f_equal. exact IH.
Qed.

Lemma rstrip_idem (l : str) : rstrip (rstrip l) = rstrip l.
Proof.
  induction l as [| c l IH]; [reflexivity |].
  simpl. destruct (rstrip l) as [| r0 r] eqn:E.
  - destruct (is_space c) eqn:Ec; [reflexivity |].
    simpl. rewrite Ec. reflexivity.
  - cbn [rstrip] in IH |- *. rewrite IH. reflexivity.
Qed.

Lemma rstrip_spaces (w : str) : all_space w -> rstrip w = [].
Proof.
  induction w as [| c w IH]; intros H; [reflexivity |].
  simpl. rewrite IH by (intros x Hx; apply H; right; exact Hx).
  rewrite (H c (or_introl eq_refl)). reflexivity.
Qed.

Lemma rstrip_drop_spaces (a w : str) :
  all_space w -> rstrip (a ++ w) = rstrip a.
Proof.
  intros Hw. induction a as [| c a IH].
  - simpl. apply rstrip_spaces. exact Hw.
  - simpl. rewrite IH. reflexivity.
Qed.

Lemma startswith_drop_spaces (sub a w : str) :
  all_space w -> (forall x, In x sub -> is_space x = false) ->
  sub <> [] ->
  startswith sub (a ++ w) = startswith sub a.
Proof.
  revert a. induction sub as [| s0 sub IH]; intros a Hw Hs Hne;
    [congruence |].
  destruct a as [| c a].
  - simpl. destruct w as [| x w]; [reflexivity |].
    destruct (N.eqb_spec s0 x) as [E | _]; [| reflexivity].
    pose proof (Hs s0 (or_introl eq_refl)) as H1.
    pose proof (Hw x (or_introl eq_refl)) as H2. congruence.
  - simpl. destruct sub as [| s1 sub'].
    + reflexivity.
    + rewrite IH; [reflexivity | exact Hw | | discriminate].
      intros x Hx. apply Hs. right. exact Hx.
Qed.

Lemma contains_spaces (sub w : str) :
  all_space w -> (forall x, In x sub -> is_space x = false) ->
  sub <> [] ->
  contains sub w = false.
Proof.
  intros Hw Hs Hne. destruct sub as [| s0 sub]; [congruence |].
  induction w as [| x w IH]; [reflexivity |].
  rewrite contains_unfold.
  rewrite IH by (intros y Hy; apply Hw; right; exact Hy).
  rewrite orb_false_r. simpl.
  destruct (N.eqb_spec s0 x) as [E | _]; [| reflexivity].
  pose proof (Hs s0 (or_introl eq_refl)) as H1.
  pose proof (Hw x (or_introl eq_refl)) as H2. congruence.
Qed.

Lemma contains_drop_spaces (sub a w : str) :
  all_space w -> (forall x, In x sub -> is_space x = false) ->
  sub <> [] ->
  contains sub (a ++ w) = contains sub a.
Proof.
  intros Hw Hs Hne. induction a as [| c a IH].
  - simpl app. rewrite (contains_spaces sub w Hw Hs Hne).
    destruct sub; [congruence | reflexivity].
  - rewrite (contains_unfold sub ((c :: a) ++ w)).
    rewrite (startswith_drop_spaces sub (c :: a) w Hw Hs Hne).
    simpl app. cbv iota. rewrite IH. symmetry. apply contains_unfold.
Qed.

Lemma contains_rstrip (sub l : str) :
  (forall x, In x sub -> is_space x = false) -> sub <> [] ->
  contains sub (rstrip l) = contains sub l.
Proof.
  intros Hs Hne. destruct (rstrip_decomp l) as (w & Hw & Hl).
  rewrite Hl at 2. symmetry. apply contains_drop_spaces; assumption.
Qed.

Lemma lstrip_app (ws : str) (c : char) (y : str) :
  all_space ws -> is_space c = false -> lstrip (ws ++ c :: y) = c :: y.
Proof.
  intros Hws Hc. induction ws as [| w ws IH].
  - simpl. rewrite Hc. reflexivity.
  - simpl. rewrite (Hws w (or_introl eq_refl)). apply IH.
    intros x Hx. apply Hws. right. exact Hx.
Qed.

Lemma then_no_space (x : char) : In x (lit "then") -> is_space x = false.
Proof.
  intros H. vm_compute in H.
  repeat (destruct H as [<- | H]; [reflexivity |]). destruct H.
Qed.

(** The header pattern does not look at trailing white space. *)
Lemma shape_body_ext (B w : str) :
  all_space w ->
  startswith (lit "if") B
  && match lstrip (skipn 2 B) with
     | c :: r3 => (c =? 40)%N && closes_paren r3
     | [] => false
     end = true ->
  startswith (lit "if") (B ++ w)
  && match lstrip (skipn 2 (B ++ w)) with
     | c :: r3 => (c =? 40)%N && closes_paren r3
     | [] => false
     end = true.
Proof.
  intros Hw H. apply andb_true_iff in H. destruct H as [Hif Hrest].
  apply startswith_inv in Hif. destruct Hif as [X HX]. subst B.
  rewrite <- app_assoc, startswith_app. cbn [andb].
  change (skipn 2 (lit "if" ++ X)) with X in Hrest.
  change (skipn 2 (lit "if" ++ X ++ w)) with (X ++ w).
  destruct (lstrip_decomp X) as (ws2 & Hws2 & HX).
  destruct (lstrip X) as [| c r3] eqn:E3; [discriminate |].
  apply andb_true_iff in Hrest. destruct Hrest as [Hc Hclose].
  apply N.eqb_eq in Hc. subst c.
  rewrite HX, <- app_assoc. cbn [app].
  rewrite (lstrip_app ws2 40%N (r3 ++ w) Hws2 eq_refl).
  rewrite N.eqb_refl. cbn [andb].
  unfold closes_paren in *. rewrite (rstrip_drop_spaces r3 w Hw).
  exact Hclose.
Qed.

Lemma shape_rstrip (q : str) :
  if_paren_shape (rstrip q) = true -> if_paren_shape q = true.
Proof.
  destruct (lstrip_decomp q) as (ws & Hws & Hq).
  destruct (lstrip q) as [| c0 r] eqn:EB.
  { rewrite app_nil_r in Hq. subst q. rewrite (rstrip_spaces ws Hws).
    discriminate. }
  pose proof (lstrip_head _ _ _ EB) as Hc0.
  destruct (rstrip_cons c0 r Hc0) as [r' Hr'].
  destruct (rstrip_decomp (c0 :: r)) as (w & Hw & HB).
  assert (HL : lstrip (rstrip q) = c0 :: r').
  { rewrite Hq, rstrip_app by (rewrite Hr'; discriminate).
    rewrite Hr'. apply lstrip_app; assumption. }
  unfold if_paren_shape. rewrite HL, EB, HB, Hr'.
  apply shape_body_ext. exact Hw.
Qed.

(** *** One line of the ungated repair *)

Lemma replace_go_within (old new s : str) (k : nat) (x : char) :
  In x (replace_go old new k s) -> In x s \/ In x new.
Proof.
  revert k. induction s as [| c s IH]; intros k H; [destruct H |].
  cbn [replace_go] in H. destruct k as [| k].
  - destruct (startswith old (c :: s)).
    + apply in_app_or in H. destruct H as [H | H]; [right; exact H |].
      destruct (IH _ H); [left; right | right]; assumption.
    + destruct H as [<- | H]; [left; left; reflexivity |].
      destruct (IH _ H); [left; right | right]; assumption.
  - destruct (IH _ H); [left; right | right]; assumption.
Qed.

Lemma first_colon_fix_cases (pats : list str) (line : str) :
  (forall kw, In kw pats -> In kw patterns_to_fix) ->
  first_colon_fix pats line = line
  \/ exists kw ws rest,
       In kw patterns_to_fix /\ all_space ws
       /\ line = ws ++ 58%N :: kw ++ rest
       /\ first_colon_fix pats line = kw ++ rest.
Proof.
  induction pats as [| kw pats IH]; intros Hp; [left; reflexivity |].
  cbn [first_colon_fix].
  destruct (Re.match_colon kw line) as [[ws rest] |] eqn:E.
  - right. destruct (match_colon_some _ _ _ _ E) as [Hws Hl].
    exists kw, ws, rest. repeat (apply conj); auto.
    apply Hp. left. reflexivity.
  - apply IH. intros k Hk. apply Hp. right. exact Hk.
Qed.

Lemma fix_line_no_nl (l : str) : no_nl l -> no_nl (fix_line l).
Proof.
  intros Hl. unfold fix_line.
  set (line1 := if contains (lit "!thme") l
                then replace (lit "!thme") (lit "!theme") l else l).
  assert (H1 : no_nl line1).
  { subst line1. destruct (contains (lit "!thme") l); [| exact Hl].
    intros H. apply replace_go_within in H. destruct H as [H | H].
    - exact (Hl H).
    - vm_compute in H. intuition discriminate. }
  set (line2 := first_colon_fix patterns_to_fix line1).
  assert (H2 : no_nl line2).
  { subst line2.
    destruct (first_colon_fix_cases patterns_to_fix line1 (fun k H => H))
      as [-> | (kw & ws & rest & Hkw & _ & Heq & ->)]; [exact H1 |].
    destruct (keyword_head _ Hkw) as (_ & _ & _ & _ & _ & Hnl).
    apply no_nl_app; [exact Hnl |].
    intros H. apply H1. rewrite Heq. apply in_or_app. right. right.
    apply in_or_app. right. exact H. }
  intros H. apply rstrip_incl in H. revert H.
  destruct (if_paren_shape line2 && negb (contains (lit "then") line2));
    [| exact H2].
  apply no_nl_app.
  - intros H. apply H2. apply rstrip_incl. exact H.
  - intros H. vm_compute in H. intuition discriminate.
Qed.

Lemma fix_line_no_thme (l : str) :
  contains (lit "!thme") (fix_line l) = false.
Proof.
  unfold fix_line.
  set (line1 := if contains (lit "!thme") l
                then replace (lit "!thme") (lit "!theme") l else l).
  assert (H1 : contains (lit "!thme") line1 = false).
  { subst line1. destruct (contains (lit "!thme") l) eqn:E;
      [apply replace_thme | exact E]. }
  set (line2 := first_colon_fix patterns_to_fix line1).
  assert (H2 : contains (lit "!thme") line2 = false).
  { subst line2.
    destruct (first_colon_fix_cases patterns_to_fix line1 (fun k H => H))
      as [-> | (kw & ws & rest & _ & _ & Heq & ->)]; [exact H1 |].
    destruct (contains (lit "!thme") (kw ++ rest)) eqn:C; [| reflexivity].
    rewrite <- H1, Heq.
    replace (ws ++ 58%N :: kw ++ rest)
      with ((ws ++ [58%N]) ++ (kw ++ rest) ++ [])
      by (rewrite app_nil_r, <- app_assoc; reflexivity).
    symmetry. apply contains_inside. exact C. }
  assert (Hr : forall x, contains (lit "!thme") x = false ->
                         contains (lit "!thme") (rstrip x) = false).
  { intros x Hx. destruct (contains (lit "!thme") (rstrip x)) eqn:C;
      [| reflexivity].
    rewrite <- Hx. symmetry. destruct (rstrip_prefix x) as [w Hw].
    rewrite Hw. exact (contains_inside _ [] (rstrip x) w C). }
  apply Hr.
  destruct (if_paren_shape line2 && negb (contains (lit "then") line2));
    [| exact H2].
  change (lit " then") with (32%N :: [116; 104; 101; 110]%N).
  rewrite contains_app_sep;
    [| discriminate | intros H; vm_compute in H; intuition discriminate].
  rewrite (Hr line2 H2). reflexivity.
Qed.

Lemma fix_line_then (l : str) :
  if_paren_shape (fix_line l) = true ->
  contains (lit "then") (fix_line l) = true.
Proof.
  unfold fix_line.
  set (line2 := first_colon_fix patterns_to_fix _).
  destruct (if_paren_shape line2) eqn:Es;
    destruct (contains (lit "then") line2) eqn:Et; cbn [negb andb].
  - intros _. rewrite contains_rstrip;
      [exact Et | exact then_no_space | discriminate].
  - intros _. rewrite contains_rstrip; [| exact then_no_space | discriminate].
    change (lit " then") with ([32%N] ++ lit "then" ++ []).
    rewrite app_assoc. apply contains_intro.
  - intros H. apply shape_rstrip in H. congruence.
  - intros H. apply shape_rstrip in H. congruence.
Qed.

Lemma fix_syntax_lines (code : str) :
  code <> [] ->
  exists if_stack,
    split [nl] (fix_plantuml_syntax code)
    = fold_left close_if if_stack (map fix_line (split [nl] code)).
Proof.
  intros Hne. unfold fix_plantuml_syntax.
  destruct code as [| c code']; [congruence |]. cbn [is_empty].
  apply validate_if_structure_split.
  - pose proof (split_not_nil (c :: code')) as H.
    destruct (split [nl] (c :: code')); [congruence | discriminate].
  - apply Forall_forall. intros y Hy. apply in_map_iff in Hy.
    destruct Hy as (l & <- & Hl). apply fix_line_no_nl.
    pose proof (split_no_nl (c :: code')) as H.
    rewrite Forall_forall in H. apply H. exact Hl.
Qed.

(** X12: whatever the text, the result of [fix_plantuml_syntax] has no
    misspelt theme directive, no line with trailing white space, and at
    least as many [endif] lines as [if] lines. *)
Theorem fix_syntax_result (code : str) :
  contains (lit "!thme") (fix_plantuml_syntax code) = false
  /\ (forall line, In line (split [nl] (fix_plantuml_syntax code)) ->
                   rstrip line = line)
  /\ fst (if_endif_counts (fix_plantuml_syntax code))
     <= snd (if_endif_counts (fix_plantuml_syntax code)).
Proof.
  destruct code as [| c code'].
  { repeat (apply conj); [reflexivity | | apply Nat.le_refl].
    intros line [<- | []]. reflexivity. }
  destruct (fix_syntax_lines (c :: code')) as [stk Hl]; [discriminate |].
  assert (Hline : forall line,
             In line (split [nl] (fix_plantuml_syntax (c :: code'))) ->
             line = lit "endif" \/ exists l, line = fix_line l).
  { intros line H. rewrite Hl in H. apply close_all_inv in H.
    destruct H as [H | H]; [left; exact H |].
    apply in_map_iff in H. destruct H as (l & <- & _).
    right. exists l. reflexivity. }
  repeat (apply conj).
  - rewrite contains_lines;
      [| discriminate | intros Hn; vm_compute in Hn; intuition discriminate].
    apply existsb_none. intros l H.
    destruct (Hline l H) as [-> | [q ->]];
      [reflexivity | apply fix_line_no_thme].
  - intros line H. destruct (Hline line H) as [-> | [q ->]];
      [reflexivity |].
    unfold fix_line. apply rstrip_idem.
  - unfold fix_plantuml_syntax. cbn [is_empty].
    destruct (balance_repair_counts
                (join [nl] (map fix_line (split [nl] (c :: code')))))
      as (k & _ & H2 & H3).
    rewrite H2. exact H3.
Qed.

(** X13: the ungated repair leaves nothing for its fix 3, whether the
    text is valid or not: in the result of [fix_plantuml_syntax] no line
    has the conditional-header shape (white space, [if], white space, a
    parenthesised text, white space) without containing [then]. *)
Theorem fix_syntax_headers_have_then (code line : str) :
  In line (split [nl] (fix_plantuml_syntax code)) ->
  if_paren_shape line = true ->
  contains (lit "then") line = true.
Proof.
  destruct code as [| c code'].
  { intros [<- | []]. discriminate. }
  destruct (fix_syntax_lines (c :: code')) as [stk Hl]; [discriminate |].
  rewrite Hl. intros H. apply close_all_inv in H.
  destruct H as [-> | H]; [discriminate |].
  apply in_map_iff in H. destruct H as (l & <- & _).
  apply fix_line_then.
Qed.

End WithUnicode.

#[local] Existing Instance latin_cyrillic.

(** A header that keeps its shape in the result: it had [then] inside
    its parentheses. *)
Lemma fix_syntax_headers_witness :
  contains (lit "then") (lit "if (then)") = true.
Proof.
  apply (fix_syntax_headers_have_then (lit "if (then)") (lit "if (then)")).
  - vm_compute. left. reflexivity.
  - vm_compute. reflexivity.
Defined.

End SyntaxFixProps.

(* ===================================================================== *)
(** ** The encoders of the renderer *)
(* ===================================================================== *)

Module RendererProps.
Import Renderer PyFacts RepairFacts SyntaxFixProps.

(** *** Markers *)

Lemma startswith_more (p s x : str) :
  startswith p s = true -> startswith p (s ++ x) = true.
Proof.
  intros H. apply startswith_inv in H. destruct H as [r ->].
  rewrite <- app_assoc. apply startswith_app.
Qed.

Lemma endswith_app (suffix a : str) : endswith suffix (a ++ suffix) = true.
Proof. unfold endswith. rewrite rev_app_distr. apply startswith_app. Qed.

Lemma rstrip_last (a : str) (c : char) :
  is_space c = false -> rstrip (a ++ [c]) = a ++ [c].
Proof.
  intros Hc. rewrite rstrip_app; simpl; rewrite Hc; [reflexivity |].
  discriminate.
Qed.

Lemma endswith_last (s : str) :
  endswith (lit "@enduml") s = true -> exists a, s = a ++ [108%N].
Proof.
  unfold endswith. intros H. apply startswith_inv in H.
  destruct H as [r Hr]. apply (f_equal (@rev char)) in Hr.
  rewrite rev_involutive, rev_app_distr in Hr.
  exists (rev r ++ lit "@endum"). rewrite Hr, <- app_assoc. reflexivity.
Qed.

Lemma strip_fixed (s : str) :
  startswith (lit "@start") s = true ->
  endswith (lit "@enduml") s = true ->
  strip s = s.
Proof.
  intros Hs He. unfold strip.
  apply startswith_inv in Hs. destruct Hs as [r Hr].
  assert (Hl : lstrip s = s) by (rewrite Hr; reflexivity).
  rewrite Hl. destruct (endswith_last s He) as [a ->].
  apply rstrip_last. reflexivity.
Qed.

Lemma with_markers_shape (code : str) :
  startswith (lit "@start") (with_markers code) = true
  /\ endswith (lit "@enduml") (with_markers code) = true.
Proof.
  unfold with_markers.
  set (c1 := if startswith (lit "@start") (strip code) then strip code
             else lit "@startuml" ++ [nl] ++ strip code).
  assert (H1 : startswith (lit "@start") c1 = true).
  { subst c1. destruct (startswith (lit "@start") (strip code)) eqn:E;
      [exact E | reflexivity]. }
  destruct (endswith (lit "@enduml") c1) eqn:E.
  - split; assumption.
  - split; [apply startswith_more; exact H1 |].
    rewrite app_assoc. apply endswith_app.
Qed.

(** X14: the text both encoders work on always starts with [@start] and
    ends with [@enduml]; a stripped text that has both is left as it is,
    and making sure of the markers twice changes nothing more. *)
Theorem with_markers_settles (code : str) :
  startswith (lit "@start") (with_markers code) = true
  /\ endswith (lit "@enduml") (with_markers code) = true
  /\ (startswith (lit "@start") (strip code) = true ->
      endswith (lit "@enduml") (strip code) = true ->
      with_markers code = strip code)
  /\ with_markers (with_markers code) = with_markers code.
Proof.
  destruct (with_markers_shape code) as [H1 H2].
  repeat (apply conj); auto.
  - intros Hs He. unfold with_markers. rewrite Hs, He. reflexivity.
  - unfold with_markers at 1.
    rewrite (strip_fixed _ H1 H2), H1, H2. reflexivity.
Qed.

(** *** Indices and letters *)

Lemma range_check (check : N -> N -> bool) :
  forallb (fun i => forallb (fun j => check (N.of_nat i) (N.of_nat j))
                      (seq 0 256)) (seq 0 256) = true ->
  forall n m : N, (n <= 255)%N -> (m <= 255)%N -> check n m = true.
Proof.
  intros H n m Hn Hm. rewrite forallb_forall in H.
  specialize (H (N.to_nat n)). rewrite forallb_forall in H.
  specialize (H ltac:(apply in_seq; lia) (N.to_nat m)
                ltac:(apply in_seq; lia)).
  rewrite !N2Nat.id in H. exact H.
Qed.

Lemma byte_pair (check : N -> N -> bool) :
  forallb (fun i => forallb (fun j => check (N.of_nat i) (N.of_nat j))
                      (seq 0 256)) (seq 0 256) = true ->
  forall b1 b2 : Byte.byte, check (Byte.to_N b1) (Byte.to_N b2) = true.
Proof.
  intros H b1 b2. apply (range_check check H); apply Byte.to_N_bounded.
Qed.

Lemma sextets_in_range (b1 b2 : Byte.byte) :
  let n1 := Byte.to_N b1 in
  let n2 := Byte.to_N b2 in
  (sextet1 n1 < 64 /\ sextet2 n1 n2 < 64 /\ sextet3 n1 n2 < 64
   /\ sextet4 n1 < 64 /\ N.shiftl (N.land n1 15) 2 < 64
   /\ N.shiftl (N.land n1 3) 4 < 64)%N.
Proof.
  intros n1 n2.
  pose proof (byte_pair
    (fun n1 n2 =>
       (sextet1 n1 <? 64) && (sextet2 n1 n2 <? 64) && (sextet3 n1 n2 <? 64)
       && (sextet4 n1 <? 64) && (N.shiftl (N.land n1 15) 2 <? 64)
       && (N.shiftl (N.land n1 3) 4 <? 64))%N
    ltac:(vm_compute; reflexivity) b1 b2) as H.
  cbv beta in H. rewrite !andb_true_iff, !N.ltb_lt in H.
  subst n1 n2. intuition.
Qed.

Lemma triple_ind (P : list Byte.byte -> Prop) :
  P [] -> (forall b1, P [b1]) -> (forall b1 b2, P [b1; b2]) ->
  (forall b1 b2 b3 rest, P rest -> P (b1 :: b2 :: b3 :: rest)) ->
  forall l, P l.
Proof.
  intros H0 H1 H2 H3. fix IH 1.
  intros [| b1 [| b2 [| b3 rest]]];
    [exact H0 | apply H1 | apply H2 | apply H3, IH].
Qed.

Lemma sextets_all_in_range (bs : list Byte.byte) :
  Forall (fun i => (i < 64)%N) (sextets bs).
Proof.
  induction bs as [| b1 | b1 b2 | b1 b2 b3 rest IH] using triple_ind.
  - constructor.
  - cbn [sextets]. pose proof (sextets_in_range b1 b1) as H.
    cbv zeta in H. repeat constructor; intuition.
  - cbn [sextets]. pose proof (sextets_in_range b1 b2) as H.
    pose proof (sextets_in_range b2 b2) as H'.
    cbv zeta in H, H'. repeat constructor; intuition.
  - cbn [sextets]. pose proof (sextets_in_range b1 b2) as H.
    pose proof (sextets_in_range b2 b3) as H'.
    pose proof (sextets_in_range b3 b3) as H''.
    cbv zeta in H, H', H''. repeat constructor; intuition.
Qed.

Lemma sextets_length (bs : list Byte.byte) :
  length (sextets bs) = (4 * length bs + 2) / 3.
Proof.
  induction bs as [| b1 | b1 b2 | b1 b2 b3 rest IH] using triple_ind;
    try reflexivity.
  cbn [sextets length]. rewrite IH.
  replace (4 * S (S (S (length rest))) + 2)
    with ((4 * length rest + 2) + 4 * 3) by lia.
  rewrite Nat.div_add by discriminate. lia.
Qed.

Lemma letter_in_range (i : N) :
  (i < 64)%N -> exists c, letter i = Some c /\ In c plantuml_alphabet.
Proof.
  intros Hi. unfold letter.
  destruct (nth_error plantuml_alphabet (N.to_nat i)) as [c |] eqn:E.
  - exists c. split; [reflexivity |]. apply (nth_error_In _ _ E).
  - apply nth_error_None in E.
    change (length plantuml_alphabet) with 64 in E. lia.
Qed.

Lemma letters_in_range (l : list N) :
  Forall (fun i => (i < 64)%N) l ->
  exists out, letters l = Some out /\ length out = length l
              /\ Forall (fun c => In c plantuml_alphabet) out.
Proof.
  induction 1 as [| i l Hi Hl (out & E & Hlen & Hall)].
  - exists []. repeat split. constructor.
  - destruct (letter_in_range i Hi) as (c & Ec & Hc).
    exists (c :: out). cbn [letters]. rewrite Ec, E.
    repeat split; [simpl; rewrite Hlen; reflexivity |].
    constructor; assumption.
Qed.

(** X15: the encoding loop never reads outside the alphabet, for any
    bytes: it returns a text of letters of the alphabet, with four letters
    for every three bytes, three for a rest of two and two for a rest of
    one. *)
Theorem encode64_total (compressed : list Byte.byte) :
  exists out,
    encode64 compressed = Some out
    /\ length out = (4 * length compressed + 2) / 3
    /\ Forall (fun c => In c plantuml_alphabet) out.
Proof.
  destruct (letters_in_range _ (sextets_all_in_range compressed))
    as (out & E & Hlen & Hall).
  exists out. repeat (apply conj); auto.
  rewrite Hlen. apply sextets_length.
Qed.

(** *** Nothing is lost in the encoding *)

Lemma letter_inj (i j : N) :
  (i < 64)%N -> (j < 64)%N -> letter i = letter j -> i = j.
Proof.
  intros Hi Hj E.
  pose proof (range_check
    (fun i j =>
       if (i <? 64) && (j <? 64)
       then match letter i, letter j with
            | Some a, Some b => negb (a =? b) || (i =? j)
            | _, _ => true
            end
       else true)%N
    ltac:(vm_compute; reflexivity) i j ltac:(lia) ltac:(lia)) as H.
  cbv beta in H.
  destruct (N.ltb_spec i 64); [| lia]. destruct (N.ltb_spec j 64); [| lia].
  cbn [andb] in H. rewrite <- E in H.
  destruct (letter_in_range i Hi) as (c & Ec & _). rewrite Ec in H.
  rewrite N.eqb_refl in H. cbn [negb orb] in H.
  apply N.eqb_eq. exact H.
Qed.

Lemma letters_inj (l l' : list N) :
  Forall (fun i => (i < 64)%N) l -> Forall (fun i => (i < 64)%N) l' ->
  letters l = letters l' -> l = l'.
Proof.
  intros Hl. revert l'. induction Hl as [| i l Hi Hl IH]; intros l' Hl' E.
  - destruct Hl' as [| j l' Hj Hl']; [reflexivity |].
    destruct (letter_in_range j Hj) as (c & Ec & _).
    destruct (letters_in_range l' Hl') as (o & Eo & _).
    cbn [letters] in E. rewrite Ec, Eo in E. discriminate.
  - destruct (letter_in_range i Hi) as (c & Ec & _).
    destruct (letters_in_range l Hl) as (o & Eo & _).
    destruct Hl' as [| j l' Hj Hl'].
    + cbn [letters] in E. rewrite Ec, Eo in E. discriminate.
    + destruct (letter_in_range j Hj) as (c' & Ec' & _).
      destruct (letters_in_range l' Hl') as (o' & Eo' & _).
      cbn [letters] in E. rewrite Ec, Eo, Ec', Eo' in E.
      injection E as Hc Ho.
      f_equal.
      * apply letter_inj; [assumption | assumption | congruence].
      * apply IH; [assumption | congruence].
Qed.

(** The bytes of a group, read back from its indices. *)
Lemma recover (b1 b2 : Byte.byte) :
  let n1 := Byte.to_N b1 in
  let n2 := Byte.to_N b2 in
  N.lor (N.shiftl (sextet1 n1) 2) (N.shiftr (sextet2 n1 n2) 4) = n1
  /\ N.lor (N.shiftl (sextet1 n1) 2)
       (N.shiftr (N.shiftl (N.land n1 3) 4) 4) = n1
  /\ N.land (sextet2 n1 n2) 15 = N.shiftr n2 4
  /\ N.shiftr (sextet3 n1 n2) 2 = N.land n1 15
  /\ N.shiftr (N.shiftl (N.land n1 15) 2) 2 = N.land n1 15
  /\ N.lor (N.shiftl (N.shiftr n1 4) 4) (N.land n1 15) = n1
  /\ N.land (sextet3 n1 n2) 3 = N.shiftr n2 6
  /\ N.lor (N.shiftl (N.shiftr n1 6) 6) (sextet4 n1) = n1.
Proof.
  intros n1 n2.
  pose proof (byte_pair
    (fun n1 n2 =>
       (N.lor (N.shiftl (sextet1 n1) 2) (N.shiftr (sextet2 n1 n2) 4) =? n1)
       && (N.lor (N.shiftl (sextet1 n1) 2)
             (N.shiftr (N.shiftl (N.land n1 3) 4) 4) =? n1)
       && (N.land (sextet2 n1 n2) 15 =? N.shiftr n2 4)
       && (N.shiftr (sextet3 n1 n2) 2 =? N.land n1 15)
       && (N.shiftr (N.shiftl (N.land n1 15) 2) 2 =? N.land n1 15)
       && (N.lor (N.shiftl (N.shiftr n1 4) 4) (N.land n1 15) =? n1)
       && (N.land (sextet3 n1 n2) 3 =? N.shiftr n2 6)
       && (N.lor (N.shiftl (N.shiftr n1 6) 6) (sextet4 n1) =? n1))%N
    ltac:(vm_compute; reflexivity) b1 b2) as H.
  cbv beta in H. rewrite !andb_true_iff, !N.eqb_eq in H.
  subst n1 n2. intuition.
Qed.

Lemma to_N_inj (b b' : Byte.byte) : Byte.to_N b = Byte.to_N b' -> b = b'.
Proof.
  intros H. pose proof (Byte.of_to_N b) as E.
  rewrite H, Byte.of_to_N in E. congruence.
Qed.

Lemma first_byte_inj (b1 b2 b1' b2' : Byte.byte) :
  sextet1 (Byte.to_N b1) = sextet1 (Byte.to_N b1') ->
  sextet2 (Byte.to_N b1) (Byte.to_N b2)
  = sextet2 (Byte.to_N b1') (Byte.to_N b2') ->
  b1 = b1'.
Proof.
  intros H1 H2. apply to_N_inj.
  destruct (recover b1 b2) as (R & _). destruct (recover b1' b2') as (R' & _).
  cbv zeta in R, R'. rewrite <- R, <- R', H1, H2. reflexivity.
Qed.

Lemma second_byte_inj (b1 b2 b3 b1' b2' b3' : Byte.byte) :
  sextet2 (Byte.to_N b1) (Byte.to_N b2)
  = sextet2 (Byte.to_N b1') (Byte.to_N b2') ->
  sextet3 (Byte.to_N b2) (Byte.to_N b3)
  = sextet3 (Byte.to_N b2') (Byte.to_N b3') ->
  b2 = b2'.
Proof.
  intros H2 H3. apply to_N_inj.
  destruct (recover b1 b2) as (_ & _ & A & _).
  destruct (recover b1' b2') as (_ & _ & A' & _).
  destruct (recover b2 b3) as (_ & _ & _ & B & _ & C & _).
  destruct (recover b2' b3') as (_ & _ & _ & B' & _ & C' & _).
  cbv zeta in *. rewrite <- C, <- C', <- A, <- A', <- B, <- B', H2, H3.
  reflexivity.
Qed.

Lemma third_byte_inj (b2 b3 b2' b3' : Byte.byte) :
  sextet3 (Byte.to_N b2) (Byte.to_N b3)
  = sextet3 (Byte.to_N b2') (Byte.to_N b3') ->
  sextet4 (Byte.to_N b3) = sextet4 (Byte.to_N b3') ->
  b3 = b3'.
Proof.
  intros H3 H4. apply to_N_inj.
  destruct (recover b2 b3) as (_ & _ & _ & _ & _ & _ & A & _).
  destruct (recover b2' b3') as (_ & _ & _ & _ & _ & _ & A' & _).
  destruct (recover b3 b3) as (_ & _ & _ & _ & _ & _ & _ & C).
  destruct (recover b3' b3') as (_ & _ & _ & _ & _ & _ & _ & C').
  cbv zeta in *. rewrite <- C, <- C', <- A, <- A', H3, H4. reflexivity.
Qed.

Lemma last_of_two_inj (b1 b2 b1' b2' : Byte.byte) :
  sextet2 (Byte.to_N b1) (Byte.to_N b2)
  = sextet2 (Byte.to_N b1') (Byte.to_N b2') ->
  N.shiftl (N.land (Byte.to_N b2) 15) 2
  = N.shiftl (N.land (Byte.to_N b2') 15) 2 ->
  b2 = b2'.
Proof.
  intros H2 H3. apply to_N_inj.
  destruct (recover b1 b2) as (_ & _ & A & _).
  destruct (recover b1' b2') as (_ & _ & A' & _).
  destruct (recover b2 b2) as (_ & _ & _ & _ & B & C & _).
  destruct (recover b2' b2') as (_ & _ & _ & _ & B' & C' & _).
  cbv zeta in *. rewrite <- C, <- C', <- A, <- A', <- B, <- B', H2, H3.
  reflexivity.
Qed.

Lemma only_byte_inj (b1 b1' : Byte.byte) :
  sextet1 (Byte.to_N b1) = sextet1 (Byte.to_N b1') ->
  N.shiftl (N.land (Byte.to_N b1) 3) 4
  = N.shiftl (N.land (Byte.to_N b1') 3) 4 ->
  b1 = b1'.
Proof.
  intros H1 H2. apply to_N_inj.
  destruct (recover b1 b1) as (_ & R & _).
  destruct (recover b1' b1') as (_ & R' & _).
  cbv zeta in R, R'. rewrite <- R, <- R', H1, H2. reflexivity.
Qed.

Lemma sextets_inj (bs bs' : list Byte.byte) :
  sextets bs = sextets bs' -> bs = bs'.
Proof.
  revert bs'.
  induction bs as [| b1 | b1 b2 | b1 b2 b3 rest IH] using triple_ind;
    intros [| c1 [| c2 [| c3 rest']]] E; cbn [sextets] in E;
    try discriminate E; try reflexivity.
  - injection E as E1 E2. f_equal. apply (only_byte_inj _ _ E1 E2).
  - injection E as E1 E2 E3.
    pose proof (first_byte_inj _ _ _ _ E1 E2) as ->.
    pose proof (last_of_two_inj _ _ _ _ E2 E3) as ->. reflexivity.
  - injection E as E1 E2 E3 E4 Erest.
    pose proof (first_byte_inj _ _ _ _ E1 E2) as ->.
    pose proof (second_byte_inj _ _ _ _ _ _ E2 E3) as ->.
    pose proof (third_byte_inj _ _ _ _ E3 E4) as ->.
    rewrite (IH rest' Erest). reflexivity.
Qed.

(** X16: the encoding loses nothing: two byte strings with the same
    encoding are the same byte string. *)
Theorem encode64_injective (bs bs' : list Byte.byte) :
  encode64 bs = encode64 bs' -> bs = bs'.
Proof.
  unfold encode64. intros E. apply sextets_inj.
  apply letters_inj; [apply sextets_all_in_range .. | exact E].
Qed.

(** Two one-byte strings with the same two letters. *)
Lemma encode64_injective_witness :
  [Byte.x61; Byte.x62] = [Byte.x61; Byte.x62].
Proof.
  apply (encode64_injective [Byte.x61; Byte.x62] [Byte.x61; Byte.x62]).
  reflexivity.
Defined.

End RendererProps.
